(** * Adaptive Kalman filter of StrongSORT: a shallow embedding

    The development follows
    [trackers/strong_sort/sort/adaptive_kalman_filter.py].  The arrays of
    the program hold floating-point numbers; here they hold real numbers,
    so every statement below is a statement of exact arithmetic.  Rounding,
    overflow and underflow of binary64 are outside the model: a formula
    holds of the program up to rounding, and on an ill-conditioned or
    extreme input the program can reject a positive definite matrix or
    return zero for a tiny square.

    An [ndarray] is a function from indices to reals; the shape of an array
    is not stored in it, it is the bound of the sums that read it and of
    the index ranges of the statements about it.  A slice such as
    [projected_cov[:2, :2]] is therefore the same function read with a
    smaller bound. *)

From Stdlib Require Import Reals Lra Lia Arith List Bool.
From Stdlib Require String.
Import ListNotations.
Local Open Scope R_scope.

(** ** Finite sums *)

Fixpoint sum_n (n : nat) (f : nat -> R) : R :=
  match n with
  | O => 0
  | S k => f O + sum_n k (fun i => f (S i))
  end.

(** ** The part of numpy the filter uses *)

Module np.

Definition array1 := nat -> R.
Definition array2 := nat -> nat -> R.

Definition zeros1 : array1 := fun _ => 0.
Definition zeros2 : array2 := fun _ _ => 0.
Definition eye : array2 := fun i j => if Nat.eqb i j then 1 else 0.

(** [np.array] of a Python list, [np.r_[a, b]] for [a] of length [n]. *)
Definition array (l : list R) : array1 := fun i => nth i l 0.
Definition r_ (n : nat) (a b : array1) : array1 :=
  fun i => if Nat.ltb i n then a i else b (i - n)%nat.

(** [A[i, j] = v]. *)
Definition setitem (A : array2) (i j : nat) (v : R) : array2 :=
  fun i' j' => if Nat.eqb i' i && Nat.eqb j' j then v else A i' j'.

Definition T (A : array2) : array2 := fun i j => A j i.

(** [np.dot] at its three uses; [k] is the length of the contracted axis. *)
Definition dot (k : nat) (A B : array2) : array2 :=
  fun i j => sum_n k (fun l => A i l * B l j).
Definition dot_mv (k : nat) (A : array2) (x : array1) : array1 :=
  fun i => sum_n k (fun l => A i l * x l).
Definition dot_vm (k : nat) (x : array1) (A : array2) : array1 :=
  fun j => sum_n k (fun l => x l * A l j).

Definition outer (x y : array1) : array2 := fun i j => x i * y j.
Definition square (v : array1) : array1 := fun i => v i ^ 2.
Definition diag (v : array1) : array2 :=
  fun i j => if Nat.eqb i j then v i else 0.

Definition add1 (x y : array1) : array1 := fun i => x i + y i.
Definition sub1 (x y : array1) : array1 := fun i => x i - y i.
Definition scale1 (c : R) (x : array1) : array1 := fun i => c * x i.
Definition add2 (A B : array2) : array2 := fun i j => A i j + B i j.
Definition sub2 (A B : array2) : array2 := fun i j => A i j - B i j.
Definition scale2 (c : R) (A : array2) : array2 := fun i j => c * A i j.

End np.

(** ** The part of numpy.linalg and scipy.linalg the filter uses

    These are library routines, not code of the repository.  They are
    modelled by the algorithm their documentation describes: the Cholesky
    factor is the lower-triangular [L] with positive diagonal built column
    by column from the lower triangle of the argument, the routine raising
    [LinAlgError] at the first pivot that is not positive; the triangular
    solves are forward and backward substitution. *)

Inductive result (A : Type) : Type :=
| Ok : A -> result A
| LinAlgError : result A.
Arguments Ok {A} _.
Arguments LinAlgError {A}.

Module linalg.

Import np.

(** The factor of the leading [n] by [n] block of [a]: the first column is
    the first column of [a] over the root of the pivot, the rest is the
    factor of the Schur complement. *)
Fixpoint cholesky (n : nat) (a : array2) : result array2 :=
  match n with
  | O => Ok zeros2
  | S k =>
      if Rlt_dec 0 (a O O) then
        match cholesky k (fun i j => a (S i) (S j) - a (S i) O * a (S j) O / a O O) with
        | Ok L' =>
            Ok (fun i j =>
                  match i, j with
                  | O, O => sqrt (a O O)
                  | O, S _ => 0
                  | S i', O => a (S i') O / sqrt (a O O)
                  | S i', S j' => L' i' j'
                  end)
        | LinAlgError => LinAlgError
        end
      else LinAlgError
  end.

(** Forward substitution: the [y] with [L y = b] for lower-triangular [L]. *)
Fixpoint solve_lower (n : nat) (L : array2) (b : array1) : array1 :=
  match n with
  | O => zeros1
  | S k =>
      let y0 := b O / L O O in
      let y' := solve_lower k (fun i j => L (S i) (S j))
                               (fun i => b (S i) - L (S i) O * y0) in
      fun i => match i with O => y0 | S i' => y' i' end
  end.

(** Backward substitution: the [x] with [U x = b] for upper-triangular [U]. *)
Fixpoint solve_upper (n : nat) (U : array2) (b : array1) : array1 :=
  match n with
  | O => zeros1
  | S k =>
      let x' := solve_upper k (fun i j => U (S i) (S j)) (fun i => b (S i)) in
      let x0 := (b O - sum_n k (fun j => U O (S j) * x' j)) / U O O in
      fun i => match i with O => x0 | S i' => x' i' end
  end.

(** [scipy.linalg.cho_factor(a, lower=True)]: the factor and the flag. *)
Definition cho_factor (n : nat) (a : array2) : result (array2 * bool) :=
  match cholesky n a with
  | Ok c => Ok (c, true)
  | LinAlgError => LinAlgError
  end.

(** [scipy.linalg.cho_solve((c, lower), b)]: the solution [x] of [a x = b],
    column by column, where [a = c c^T] ([lower]) or [a = c^T c]. *)
Definition cho_solve (n : nat) (c_and_lower : array2 * bool) (b : array2) : array2 :=
  let c := fst c_and_lower in
  let lower := snd c_and_lower in
  fun i j =>
    let col := fun i' => b i' j in
    if lower then solve_upper n (T c) (solve_lower n c col) i
    else solve_upper n c (solve_lower n (T c) col) i.

(** [scipy.linalg.solve_triangular(a, b, lower=True)] on one column [b]. *)
Definition solve_triangular (n : nat) (a : array2) (b : array1) : array1 :=
  solve_lower n a b.

(** [np.linalg.multi_dot] of three arrays of shapes [a0 x a1b0],
    [a1b0 x b1c0] and [b1c0 x c1]: the cheaper of the two bracketings. *)
Definition multi_dot (a0 a1b0 b1c0 c1 : nat) (A B C : array2) : array2 :=
  let cost1 := (a0 * b1c0 * (a1b0 + c1))%nat in
  let cost2 := (a1b0 * c1 * (a0 + b1c0))%nat in
  if Nat.ltb cost1 cost2 then dot b1c0 (dot a1b0 A B) C
  else dot a1b0 A (dot b1c0 B C).

End linalg.

(** ** The filter *)

Import np.

(** The instance attributes that the methods assign: the two noise
    matrices, the residual of the last update, and the image size that the
    host sets. *)
Record AdaptiveKalmanFilter : Type := mkAdaptiveKalmanFilter {
  _process_noise : array2;
  _measurement_noise : array2;
  _residual : array1;
  image_width : R;
  image_height : R
}.

(** The attributes that [__init__] sets once and no method assigns. *)
Definition ndim : nat := 4.
Definition dt : R := 1.
Definition _I : array2 := eye.
Definition _motion_mat : array2 :=
  fold_left (fun M i => setitem M i (ndim + i) dt) (seq 0 ndim) eye.
Definition _update_mat : array2 := eye.
Definition _std_weight_position : R := 1 / 20.
Definition _std_weight_velocity : R := 1 / 160.
Definition _std_weight_accel : R := 1 / 160.
Definition _forgetting_factor : R := 9 / 10.

(** [__init__]. *)
Definition __init__ : AdaptiveKalmanFilter :=
  {| _process_noise := zeros2;
     _measurement_noise := zeros2;
     _residual := zeros1;
     image_width := 0;
     image_height := 0 |}.

(** The host's assignment of [image_width] and [image_height]. *)
Definition set_image_size (w h : R) (self : AdaptiveKalmanFilter) : AdaptiveKalmanFilter :=
  {| _process_noise := _process_noise self;
     _measurement_noise := _measurement_noise self;
     _residual := _residual self;
     image_width := w;
     image_height := h |}.

Definition set_process_noise (val : array2) (self : AdaptiveKalmanFilter) : AdaptiveKalmanFilter :=
  {| _process_noise := val;
     _measurement_noise := _measurement_noise self;
     _residual := _residual self;
     image_width := image_width self;
     image_height := image_height self |}.

Definition set_measurement_noise (val : array2) (self : AdaptiveKalmanFilter) : AdaptiveKalmanFilter :=
  {| _process_noise := _process_noise self;
     _measurement_noise := val;
     _residual := _residual self;
     image_width := image_width self;
     image_height := image_height self |}.

Definition set_residual (val : array1) (self : AdaptiveKalmanFilter) : AdaptiveKalmanFilter :=
  {| _process_noise := _process_noise self;
     _measurement_noise := _measurement_noise self;
     _residual := val;
     image_width := image_width self;
     image_height := image_height self |}.

Definition distance_to_image_center (self : AdaptiveKalmanFilter) (bbox : array1) : R :=
  sqrt ((image_width self / 2 - bbox 0%nat) ^ 2 + (image_height self / 2 - bbox 1%nat) ^ 2).

(** The list [std] of [initiate]. *)
Definition initiate_std (self : AdaptiveKalmanFilter) (measurement : array1) : list R :=
  let dist := distance_to_image_center self measurement in
  [ 2 * _std_weight_position * dist;
    2 * _std_weight_position * dist;
    1 * measurement 2%nat;
    2 * _std_weight_position * measurement 3%nat;
    10 * _std_weight_velocity * dist;
    10 * _std_weight_velocity * dist;
    (1 / 10) * measurement 2%nat;
    10 * _std_weight_velocity * measurement 3%nat ].

Definition initiate (self : AdaptiveKalmanFilter) (measurement : array1) : array1 * array2 :=
  let mean_pos := measurement in
  let mean_vel := zeros1 in
  let mean := r_ ndim mean_pos mean_vel in
  let std := initiate_std self measurement in
  let covariance := diag (square (array std)) in
  (mean, covariance).

Definition predict (self : AdaptiveKalmanFilter) (mean : array1) (covariance : array2)
  : (array1 * array2) * AdaptiveKalmanFilter :=
  let mean' := dot_mv 8 _motion_mat mean in
  let covariance' :=
    add2 (linalg.multi_dot 8 8 8 8 _motion_mat covariance (T _motion_mat))
         (_process_noise self) in
  ((mean', covariance'), self).

(** The list [std] of [project], after the scaling by [1 - confidence]. *)
Definition project_std (mean : array1) (confidence : R) : list R :=
  let std :=
    [ _std_weight_position * mean 3%nat;
      _std_weight_position * mean 3%nat;
      1 / 10;
      _std_weight_position * mean 3%nat ] in
  map (fun x => (1 - confidence) * x) std.

Definition project (self : AdaptiveKalmanFilter) (mean : array1) (covariance : array2)
                   (confidence : R)
  : (array1 * array2) * AdaptiveKalmanFilter :=
  let projected_mean := dot_mv 8 _update_mat mean in
  let projected_cov := linalg.multi_dot 4 8 8 4 _update_mat covariance (T _update_mat) in
  let std := project_std mean confidence in
  let additive_measurement_noise := diag (square (array std)) in
  let est_measurement_noise :=
    add2 (outer (_residual self) (_residual self)) projected_cov in
  let self' :=
    set_measurement_noise
      (add2 (scale2 _forgetting_factor
                    (add2 (_measurement_noise self) additive_measurement_noise))
            (scale2 (1 - _forgetting_factor) est_measurement_noise))
      self in
  let projected_cov' := add2 projected_cov (_measurement_noise self') in
  ((projected_mean, projected_cov'), self').

(** The innovation and the gain, as [update] computes them from the
    projection. *)
Definition innovation (measurement projected_mean : array1) : array1 :=
  sub1 measurement projected_mean.

Definition kalman_gain (chol : array2 * bool) (covariance : array2) : array2 :=
  T (linalg.cho_solve 4 chol (T (dot 8 covariance (T _update_mat)))).

(** The lists [std_pos] and [std_vel] of [update], joined. *)
Definition update_std (self : AdaptiveKalmanFilter) (mean : array1) : list R :=
  let dist := distance_to_image_center self mean in
  let std_pos :=
    [ _std_weight_position * dist;
      _std_weight_position * dist;
      1 * mean 2%nat;
      _std_weight_position * mean 3%nat ] in
  let std_vel :=
    [ _std_weight_velocity * dist;
      _std_weight_velocity * dist;
      (1 / 10) * mean 2%nat;
      _std_weight_velocity * mean 3%nat ] in
  std_pos ++ std_vel.

Definition update (self : AdaptiveKalmanFilter) (mean : array1) (covariance : array2)
                  (measurement : array1) (confidence : R)
  : result (array1 * array2) * AdaptiveKalmanFilter :=
  let pr := project self mean covariance confidence in
  let projected_mean := fst (fst pr) in
  let projected_cov := snd (fst pr) in
  let self1 := snd pr in
  let nu := innovation measurement projected_mean in
  match linalg.cho_factor 4 projected_cov with
  | LinAlgError => (LinAlgError, self1)
  | Ok chol =>
      let K := kalman_gain chol covariance in
      let additive_process_noise := diag (square (array (update_std self1 mean))) in
      let est_process_noise := linalg.multi_dot 8 4 4 8 K (outer nu nu) (T K) in
      let self2 :=
        set_process_noise
          (add2 (scale2 _forgetting_factor
                        (add2 (_process_noise self1) additive_process_noise))
                (scale2 (1 - _forgetting_factor) est_process_noise))
          self1 in
      let new_mean := add1 mean (dot_vm 4 nu (T K)) in
      let I_KH := sub2 _I (dot 4 K _update_mat) in
      let new_covariance :=
        add2 (linalg.multi_dot 8 8 8 8 I_KH covariance (T I_KH))
             (linalg.multi_dot 8 4 4 8 K (_measurement_noise self2) (T K)) in
      let upd_projected_mean := dot_mv 8 _update_mat new_mean in
      let self3 := set_residual (sub1 measurement upd_projected_mean) self2 in
      (Ok (new_mean, new_covariance), self3)
  end.

(** [measurements] is the list of the rows of the N by 4 array.  With
    [only_position] the projection and the rows are read up to index 2. *)
Definition gating_distance (self : AdaptiveKalmanFilter) (mean : array1) (covariance : array2)
                           (measurements : list array1) (only_position : bool)
  : result (list R) * AdaptiveKalmanFilter :=
  let pr := project self mean covariance 0 in
  let projected_mean := fst (fst pr) in
  let projected_cov := snd (fst pr) in
  let self1 := snd pr in
  let n := if only_position then 2%nat else 4%nat in
  match linalg.cholesky n projected_cov with
  | LinAlgError => (LinAlgError, self1)
  | Ok cholesky_factor =>
      let d := map (fun m => sub1 m projected_mean) measurements in
      let z := map (linalg.solve_triangular n cholesky_factor) d in
      let squared_maha := map (fun zc => sum_n n (fun k => zc k * zc k)) z in
      (Ok squared_maha, self1)
  end.

(** ** Vocabulary of the statements *)

(** Equality of arrays of a given shape. *)
Definition eq1 (n : nat) (x y : array1) : Prop :=
  forall i, (i < n)%nat -> x i = y i.
Definition eq2 (m n : nat) (A B : array2) : Prop :=
  forall i j, (i < m)%nat -> (j < n)%nat -> A i j = B i j.

Definition symmetric (n : nat) (A : array2) : Prop :=
  forall i j, (i < n)%nat -> (j < n)%nat -> A i j = A j i.

(** The quadratic form [x^T A x] of an [n] by [n] array. *)
Definition quad (n : nat) (A : array2) (x : array1) : R :=
  sum_n n (fun i => x i * dot_mv n A x i).

Definition nonzero (n : nat) (x : array1) : Prop :=
  exists i, (i < n)%nat /\ x i <> 0.

Definition pos_semi_def (n : nat) (A : array2) : Prop :=
  symmetric n A /\ forall x, 0 <= quad n A x.

Definition pos_def (n : nat) (A : array2) : Prop :=
  symmetric n A /\ forall x, nonzero n x -> 0 < quad n A x.

(** The Schur complement of the first pivot, as [linalg.cholesky] forms it. *)
Definition schur (a : array2) : array2 :=
  fun i j => a (S i) (S j) - a (S i) O * a (S j) O / a O O.

Definition lower_triangular (n : nat) (L : array2) : Prop :=
  forall i j, (i < j)%nat -> (j < n)%nat -> L i j = 0.

Definition upper_triangular (n : nat) (U : array2) : Prop :=
  forall i j, (j < i)%nat -> (i < n)%nat -> U i j = 0.

Definition nonzero_diagonal (n : nat) (L : array2) : Prop :=
  forall i, (i < n)%nat -> L i i <> 0.

(** The symmetric array with the lower triangle of [a]: what the
    factorization reads of its argument. *)
Definition lower_sym (a : array2) : array2 :=
  fun i j => if Nat.leb j i then a i j else a j i.

(** [B] is the inverse of the [n] by [n] array [A]. *)
Definition inverse (n : nat) (A B : array2) : Prop :=
  eq2 n n (dot n A B) eye /\ eq2 n n (dot n B A) eye.

(** ** The formulas of the specification

    The arrays below are written from the specification's sentences, to
    be compared with what the methods compute. *)

(** The baseline standard deviations of the measurement noise, scaled by
    [1 - confidence]. *)
Definition spec_project_std (mean : array1) (confidence : R) : array1 :=
  scale1 (1 - confidence)
         (array [ 1 / 20 * mean 3%nat; 1 / 20 * mean 3%nat; 1 / 10; 1 / 20 * mean 3%nat ]).

(** [0.9 * (R_old + diag(s^2)) + 0.1 * (r (outer) r + H P H^T)]. *)
Definition spec_R_new (R_old : array2) (r : array1) (mean : array1) (P : array2)
                      (confidence : R) : array2 :=
  add2 (scale2 (9 / 10) (add2 R_old (diag (square (spec_project_std mean confidence)))))
       (scale2 (1 / 10)
               (add2 (outer r r) (dot 8 _update_mat (dot 8 P (T _update_mat))))).

(** The baseline standard deviations of the process noise at a mean whose
    distance to the image centre is [dist]. *)
Definition spec_update_std (dist : R) (mean : array1) : array1 :=
  array [ 1 / 20 * dist; 1 / 20 * dist; mean 2%nat; 1 / 20 * mean 3%nat;
          1 / 160 * dist; 1 / 160 * dist; 1 / 10 * mean 2%nat; 1 / 160 * mean 3%nat ].

(** [0.9 * (Q_old + A) + 0.1 * K (nu (outer) nu) K^T]. *)
Definition spec_Q_new (Q_old A K : array2) (nu : array1) : array2 :=
  add2 (scale2 (9 / 10) (add2 Q_old A))
       (scale2 (1 / 10) (dot 4 K (dot 4 (outer nu nu) (T K)))).

(** The Joseph form [(I - K H) P (I - K H)^T + K R K^T]. *)
Definition spec_joseph (K P Rm : array2) : array2 :=
  add2 (dot 8 (sub2 eye (dot 4 K _update_mat))
              (dot 8 P (T (sub2 eye (dot 4 K _update_mat)))))
       (dot 4 K (dot 4 Rm (T K))).

(** ** Histories of an instance *)

(** The instances on which no [update] has run: a new instance, after any
    number of assignments of the image size and of calls of [predict],
    [project] and [gating_distance]. *)
Inductive before_first_update : AdaptiveKalmanFilter -> Prop :=
| bfu_init : before_first_update __init__
| bfu_image_size w h self :
    before_first_update self -> before_first_update (set_image_size w h self)
| bfu_predict self mean covariance :
    before_first_update self ->
    before_first_update (snd (predict self mean covariance))
| bfu_project self mean covariance confidence :
    before_first_update self ->
    before_first_update (snd (project self mean covariance confidence))
| bfu_gating self mean covariance measurements only_position :
    before_first_update self ->
    before_first_update
      (snd (gating_distance self mean covariance measurements only_position)).

(** Both noise matrices of the instance are symmetric positive
    semi-definite, as they are in a new instance. *)
Definition noise_psd (self : AdaptiveKalmanFilter) : Prop :=
  pos_semi_def 8 (_process_noise self) /\ pos_semi_def 4 (_measurement_noise self).

(** The instance and the state estimate of a track: [initiate], then any
    number of calls of [predict] and of successful [update]s, which replace
    the estimate, and of failing [update]s, of [project] and
    [gating_distance] and of assignments of the image size, which keep it. *)
Inductive tracking : AdaptiveKalmanFilter -> array1 -> array2 -> Prop :=
| tracking_initiate self measurement :
    noise_psd self ->
    tracking self (fst (initiate self measurement)) (snd (initiate self measurement))
| tracking_predict self mean covariance :
    tracking self mean covariance ->
    tracking (snd (predict self mean covariance))
             (fst (fst (predict self mean covariance)))
             (snd (fst (predict self mean covariance)))
| tracking_update self mean covariance measurement confidence mean' covariance' self' :
    tracking self mean covariance ->
    update self mean covariance measurement confidence = (Ok (mean', covariance'), self') ->
    tracking self' mean' covariance'
| tracking_update_error self mean covariance measurement confidence self' :
    tracking self mean covariance ->
    update self mean covariance measurement confidence = (LinAlgError, self') ->
    tracking self' mean covariance
| tracking_project self mean covariance confidence :
    tracking self mean covariance ->
    tracking (snd (project self mean covariance confidence)) mean covariance
| tracking_gating self mean covariance measurements only_position :
    tracking self mean covariance ->
    tracking (snd (gating_distance self mean covariance measurements only_position))
             mean covariance
| tracking_image_size w h self mean covariance :
    tracking self mean covariance ->
    tracking (set_image_size w h self) mean covariance.

(** The entry of [squared_maha] for one measurement [m]: the squared norm
    of the forward solve of [m - mu] against the factor [L]. *)
Definition squared_maha (n : nat) (L : array2) (mu m : array1) : R :=
  sum_n n (fun k => linalg.solve_triangular n L (sub1 m mu) k
                    * linalg.solve_triangular n L (sub1 m mu) k).

(** ** A worked example

    A new instance, the state with unit covariance at the box
    [(100, 100, 0.5, 20)], and a detection one pixel away in [x], [y]
    and [h]. *)
Definition example_mean : array1 := array [100; 100; 1 / 2; 20; 0; 0; 0; 0].
Definition example_measurement : array1 := array [101; 99; 1 / 2; 21].

(** ** Code beside the claims *)

(** [n] calls of [predict] on one instance, each on the estimate the call
    before returned. *)
Definition predicts (n : nat) (self : AdaptiveKalmanFilter) (mean : array1)
                    (covariance : array2) : array1 * array2 :=
  Nat.iter n (fun mc => fst (predict self (fst mc) (snd mc))) (mean, covariance).

(** One call on a track: the instance and the estimate before and after. *)
Inductive track_step :
  AdaptiveKalmanFilter -> array1 -> array2 ->
  AdaptiveKalmanFilter -> array1 -> array2 -> Prop :=
| step_predict self mean covariance :
    track_step self mean covariance
               (snd (predict self mean covariance))
               (fst (fst (predict self mean covariance)))
               (snd (fst (predict self mean covariance)))
| step_update self mean covariance measurement confidence mean' covariance' self' :
    update self mean covariance measurement confidence = (Ok (mean', covariance'), self') ->
    track_step self mean covariance self' mean' covariance'
| step_project self mean covariance confidence :
    track_step self mean covariance
               (snd (project self mean covariance confidence)) mean covariance
| step_gating self mean covariance measurements only_position :
    track_step self mean covariance
               (snd (gating_distance self mean covariance measurements only_position))
               mean covariance
| step_image_size w h self mean covariance :
    track_step self mean covariance (set_image_size w h self) mean covariance.

Inductive track_steps :
  AdaptiveKalmanFilter -> array1 -> array2 ->
  AdaptiveKalmanFilter -> array1 -> array2 -> Prop :=
| steps_none self mean covariance :
    track_steps self mean covariance self mean covariance
| steps_more self mean covariance self1 mean1 covariance1 self2 mean2 covariance2 :
    track_steps self mean covariance self1 mean1 covariance1 ->
    track_step self1 mean1 covariance1 self2 mean2 covariance2 ->
    track_steps self mean covariance self2 mean2 covariance2.

(** The fixed point of the recursion of the measurement noise at a state:
    [9 diag(s^2) + r (outer) r + H P H^T]. *)
Definition spec_R_limit (r : array1) (mean : array1) (P : array2) (confidence : R) : array2 :=
  add2 (scale2 9 (diag (square (spec_project_std mean confidence))))
       (add2 (outer r r) (dot 8 _update_mat (dot 8 P (T _update_mat)))).

(** The table [chi2inv95], a dict from degrees of freedom to quantiles, and
    the subscript [d[key]], which raises [KeyError] (here [None]) at a key
    the dict lacks. *)
Definition chi2inv95 : list (nat * R) :=
  [ (1%nat, 38415 / 10000);
    (2%nat, 59915 / 10000);
    (3%nat, 78147 / 10000);
    (4%nat, 94877 / 10000);
    (5%nat, 11070 / 1000);
    (6%nat, 12592 / 1000);
    (7%nat, 14067 / 1000);
    (8%nat, 15507 / 1000);
    (9%nat, 16919 / 1000) ].

Fixpoint getitem (d : list (nat * R)) (key : nat) : option R :=
  match d with
  | [] => None
  | (k, v) :: d' => if Nat.eqb k key then Some v else getitem d' key
  end.

(** ** The package [boxmot]

    [boxmot/__init__.py] is a sequence of bindings: an assignment to
    [__version__], ten import statements, and assignments to [TRACKERS] and
    [__all__].  A module is modelled by the names it binds. *)

Module boxmot.
Import String.StringSyntax.
Local Open Scope string_scope.

Definition __version__ : String.string := "10.0.82".

(** The names the import statements bind, in the order of the file;
    [DeepOCSort] and [OCSort] are bound under the aliases [DeepOCSORT] and
    [OCSORT]. *)
Definition imported : list String.string :=
  [ "gsi"; "create_tracker"; "get_tracker_config"; "BoTSORT"; "BYTETracker";
    "DeepOCSORT"; "HybridSORT"; "OCSORT"; "StrongSORT"; "ImprAssocTrack";
    "FastStrongSORT" ].

Definition TRACKERS : list String.string :=
  [ "bytetrack"; "botsort"; "strongsort"; "ocsort"; "deepocsort"; "hybridsort";
    "imprassoc"; "faststrongsort" ].

(** The tuple [__all__].  No comma separates the literals ["FastStrongSORT"]
    and ["create_tracker"], which end one line and begin the next: adjacent
    string literals are one literal, their concatenation. *)
Definition __all__ : list String.string :=
  [ "__version__";
    "StrongSORT"; "OCSORT"; "BYTETracker"; "BoTSORT"; "DeepOCSORT"; "HybridSORT";
    "ImprAssocTrack"; String.append "FastStrongSORT" "create_tracker";
    "get_tracker_config"; "gsi" ].

(** The names bound by the statements of the file. *)
Definition assigned : list String.string :=
  "__version__" :: imported ++ [ "TRACKERS"; "__all__" ].

(** [from boxmot import *] reads [__all__] in order and fetches each name
    from the namespace of the module; a name the module lacks raises
    [AttributeError]. *)
Inductive import_result :=
  | Names (names : list String.string)
  | AttributeError (name : String.string).

Fixpoint import_star (namespace all : list String.string) : import_result :=
  match all with
  | [] => Names []
  | name :: rest =>
      if existsb (String.eqb name) namespace
      then match import_star namespace rest with
           | Names names => Names (name :: names)
           | AttributeError missing => AttributeError missing
           end
      else AttributeError name
  end.

End boxmot.

(** ** Two more states

    The unit covariance with the variance of [y] raised to 100, and the
    unit covariance with the entry [(0, 1)], above the diagonal, set to 4:
    an array that is not symmetric. *)
Definition tall_covariance : array2 := setitem eye 1 1 100.
Definition skew_covariance : array2 := setitem eye 0 1 4.

(** ** Sums *)

Lemma sum_n_ext n f g :
  (forall i, (i < n)%nat -> f i = g i) -> sum_n n f = sum_n n g.
Proof.
  revert f g; induction n as [|n IH]; intros f g H; simpl; [reflexivity|].
  rewrite (H O) by lia. f_equal. apply IH. intros i Hi. apply H. lia.
Qed.

Lemma sum_n_zero n f :
  (forall i, (i < n)%nat -> f i = 0) -> sum_n n f = 0.
Proof.
  revert f; induction n as [|n IH]; intros f H; simpl; [reflexivity|].
  rewrite (H O) by lia. rewrite IH; [lra|]. intros i Hi. apply H. lia.
Qed.

Lemma sum_n_plus n f g :
  sum_n n (fun i => f i + g i) = sum_n n f + sum_n n g.
Proof.
  revert f g; induction n as [|n IH]; intros f g; simpl; [lra|].
  rewrite IH. lra.
Qed.

Lemma sum_n_minus n f g :
  sum_n n (fun i => f i - g i) = sum_n n f - sum_n n g.
Proof.
  revert f g; induction n as [|n IH]; intros f g; simpl; [lra|].
  rewrite IH. lra.
Qed.

Lemma sum_n_scal_l n c f :
  sum_n n (fun i => c * f i) = c * sum_n n f.
Proof.
  revert f; induction n as [|n IH]; intros f; simpl; [lra|].
  rewrite IH. lra.
Qed.

Lemma sum_n_scal_r n c f :
  sum_n n (fun i => f i * c) = sum_n n f * c.
Proof.
  revert f; induction n as [|n IH]; intros f; simpl; [lra|].
  rewrite IH. lra.
Qed.

Lemma sum_n_swap n m (f : nat -> nat -> R) :
  sum_n n (fun i => sum_n m (fun j => f i j)) =
  sum_n m (fun j => sum_n n (fun i => f i j)).
Proof.
  revert f; induction n as [|n IH]; intros f; simpl.
  - symmetry. apply sum_n_zero. reflexivity.
  - rewrite IH. symmetry. apply sum_n_plus.
Qed.

Lemma sum_n_nonneg n f :
  (forall i, (i < n)%nat -> 0 <= f i) -> 0 <= sum_n n f.
Proof.
  revert f; induction n as [|n IH]; intros f H; simpl; [lra|].
  assert (0 <= f O) by (apply H; lia).
  assert (0 <= sum_n n (fun i => f (S i))) by (apply IH; intros i Hi; apply H; lia).
  lra.
Qed.

Lemma sum_n_nonneg_zero n f :
  (forall i, (i < n)%nat -> 0 <= f i) -> sum_n n f = 0 ->
  forall i, (i < n)%nat -> f i = 0.
Proof.
  revert f; induction n as [|n IH]; intros f H E i Hi; [lia|].
  simpl in E.
  assert (0 <= f O) by (apply H; lia).
  assert (0 <= sum_n n (fun i => f (S i))) by (apply sum_n_nonneg; intros k Hk; apply H; lia).
  destruct i as [|i]; [lra|].
  apply (IH (fun i => f (S i))); [intros k Hk; apply H; lia| lra | lia].
Qed.

(** The sum of the entries weighted by a row of the identity. *)
Lemma sum_n_eye_l n i f :
  (i < n)%nat -> sum_n n (fun l => eye i l * f l) = f i.
Proof.
  revert i f; induction n as [|n IH]; intros i f Hi; [lia|].
  simpl. destruct i as [|i].
  - unfold eye at 1. simpl. rewrite sum_n_zero; [lra|].
    intros l _. unfold eye. simpl. lra.
  - unfold eye at 1. simpl.
    rewrite (sum_n_ext n _ (fun l => eye i l * f (S l))) by reflexivity.
    rewrite (IH i (fun l => f (S l))) by lia. lra.
Qed.

Lemma sum_n_eye_r n j f :
  (j < n)%nat -> sum_n n (fun l => f l * eye l j) = f j.
Proof.
  intros Hj. transitivity (sum_n n (fun l => eye j l * f l)).
  - apply sum_n_ext. intros l _. unfold eye.
    rewrite (Nat.eqb_sym l j). lra.
  - apply sum_n_eye_l, Hj.
Qed.

(** ** Products of arrays *)

Lemma dot_assoc p k A B C i j :
  dot p (dot k A B) C i j = dot k A (dot p B C) i j.
Proof.
  unfold dot.
  rewrite (sum_n_ext p _ (fun l => sum_n k (fun m => A i m * B m l * C l j)))
    by (intros l _; symmetry; apply sum_n_scal_r).
  rewrite sum_n_swap. apply sum_n_ext. intros m _.
  rewrite <- sum_n_scal_l. apply sum_n_ext. intros l _. ring.
Qed.

Lemma dot_mv_dot p k A B x i :
  dot_mv p (dot k A B) x i = dot_mv k A (dot_mv p B x) i.
Proof.
  unfold dot_mv, dot.
  rewrite (sum_n_ext p _ (fun l => sum_n k (fun m => A i m * B m l * x l)))
    by (intros l _; symmetry; apply sum_n_scal_r).
  rewrite sum_n_swap. apply sum_n_ext. intros m _.
  rewrite <- sum_n_scal_l. apply sum_n_ext. intros l _. ring.
Qed.

Lemma dot_mv_ext k A B x y i :
  (forall l, (l < k)%nat -> A i l = B i l) -> eq1 k x y ->
  dot_mv k A x i = dot_mv k B y i.
Proof.
  intros HA Hx. unfold dot_mv. apply sum_n_ext. intros l Hl.
  rewrite HA, Hx by assumption. reflexivity.
Qed.

Lemma dot_mv_T k A x i : dot_mv k (T A) x i = dot_vm k x A i.
Proof. unfold dot_mv, dot_vm, T. apply sum_n_ext. intros l _. ring. Qed.

(** [x . (A y) = (x A) . y]. *)
Lemma dot_adjoint n m A x y :
  sum_n n (fun i => x i * dot_mv m A y i) =
  sum_n m (fun j => dot_vm n x A j * y j).
Proof.
  unfold dot_mv, dot_vm.
  rewrite (sum_n_ext n _ (fun i => sum_n m (fun l => x i * A i l * y l))).
  2:{ intros i _. rewrite <- sum_n_scal_l. apply sum_n_ext. intros l _. ring. }
  rewrite sum_n_swap. apply sum_n_ext. intros j _.
  apply (sum_n_scal_r n (y j) (fun i => x i * A i j)).
Qed.

Lemma dot_eye_l n A i j : (i < n)%nat -> dot n eye A i j = A i j.
Proof. intros Hi. unfold dot. apply (sum_n_eye_l n i (fun l => A l j) Hi). Qed.

Lemma dot_eye_r n A i j : (j < n)%nat -> dot n A eye i j = A i j.
Proof. intros Hj. unfold dot. apply (sum_n_eye_r n j (fun l => A i l) Hj). Qed.

Lemma dot_mv_eye n x i : (i < n)%nat -> dot_mv n eye x i = x i.
Proof. intros Hi. unfold dot_mv. apply (sum_n_eye_l n i x Hi). Qed.

(** [np.linalg.multi_dot] is the product, whichever bracketing it takes. *)
Lemma multi_dot_eq a0 a1b0 b1c0 c1 A B C i j :
  linalg.multi_dot a0 a1b0 b1c0 c1 A B C i j = dot a1b0 A (dot b1c0 B C) i j.
Proof.
  unfold linalg.multi_dot.
  destruct (Nat.ltb _ _); [apply dot_assoc | reflexivity].
Qed.

(** ** Quadratic forms *)

Lemma quad_ext n A B x y :
  eq2 n n A B -> eq1 n x y -> quad n A x = quad n B y.
Proof.
  intros HA Hx. unfold quad. apply sum_n_ext. intros i Hi.
  rewrite (Hx i Hi). f_equal. apply dot_mv_ext; [intros l Hl; apply HA; assumption|assumption].
Qed.

(** [x^T (B P B^T) x = (B^T x)^T P (B^T x)] for [B] of shape [n x m]. *)
Lemma quad_congruence n m B P x :
  quad n (dot m B (dot m P (T B))) x = quad m P (dot_vm n x B).
Proof.
  unfold quad.
  rewrite (sum_n_ext n _ (fun i => x i * dot_mv m B (dot_mv m P (dot_vm n x B)) i)).
  2:{ intros i _. f_equal. rewrite dot_mv_dot.
      apply dot_mv_ext; [reflexivity|]. intros k _. rewrite dot_mv_dot.
      apply dot_mv_ext; [reflexivity|]. intros l _. apply dot_mv_T. }
  apply dot_adjoint.
Qed.

Lemma quad_add n A B x : quad n (add2 A B) x = quad n A x + quad n B x.
Proof.
  unfold quad, dot_mv, add2. rewrite <- sum_n_plus. apply sum_n_ext. intros i _.
  rewrite <- Rmult_plus_distr_l. f_equal. rewrite <- sum_n_plus.
  apply sum_n_ext. intros l _. ring.
Qed.

Lemma quad_scale n c A x : quad n (scale2 c A) x = c * quad n A x.
Proof.
  unfold quad, dot_mv, scale2. rewrite <- sum_n_scal_l. apply sum_n_ext. intros i _.
  rewrite <- Rmult_assoc, (Rmult_comm c (x i)), Rmult_assoc. f_equal.
  rewrite <- sum_n_scal_l. apply sum_n_ext. intros l _. ring.
Qed.

Lemma quad_outer n r x : quad n (outer r r) x = (sum_n n (fun i => r i * x i)) ^ 2.
Proof.
  unfold quad, dot_mv, outer.
  rewrite (sum_n_ext n _ (fun i => (r i * x i) * sum_n n (fun l => r l * x l))).
  2:{ intros i _. rewrite (sum_n_ext n _ (fun l => r i * (r l * x l)))
        by (intros l _; ring).
      rewrite sum_n_scal_l. ring. }
  rewrite sum_n_scal_r. ring.
Qed.

Lemma quad_diag n v x : quad n (diag v) x = sum_n n (fun i => v i * x i ^ 2).
Proof.
  unfold quad, dot_mv. apply sum_n_ext. intros i Hi.
  rewrite (sum_n_ext n _ (fun l => eye i l * (v i * x l))).
  2:{ intros l _. unfold diag, eye. destruct (Nat.eqb i l); ring. }
  rewrite sum_n_eye_l by assumption. ring.
Qed.

Lemma quad_zeros n x : quad n zeros2 x = 0.
Proof.
  unfold quad. apply sum_n_zero. intros i _. unfold dot_mv.
  rewrite sum_n_zero; [ring|]. intros l _. unfold zeros2. ring.
Qed.

(** ** Symmetric and positive semi-definite arrays *)

Lemma symmetric_congruence n m B P :
  symmetric m P -> symmetric n (dot m B (dot m P (T B))).
Proof.
  intros HP i j _ _. unfold dot, T.
  rewrite (sum_n_ext m _ (fun k => sum_n m (fun l => B i k * P k l * B j l)))
    by (intros k _; rewrite <- sum_n_scal_l; apply sum_n_ext; intros l _; ring).
  rewrite sum_n_swap. apply sum_n_ext. intros l Hl.
  rewrite <- sum_n_scal_l. apply sum_n_ext. intros k Hk.
  rewrite (HP k l Hk Hl). ring.
Qed.

Lemma psd_ext n A B : eq2 n n A B -> pos_semi_def n A -> pos_semi_def n B.
Proof.
  intros E [Hs Hq]. split.
  - intros i j Hi Hj. rewrite <- (E i j), <- (E j i) by assumption. apply Hs; assumption.
  - intros x. rewrite <- (quad_ext n A B x x E) by (intros i _; reflexivity). apply Hq.
Qed.

Lemma psd_add n A B : pos_semi_def n A -> pos_semi_def n B -> pos_semi_def n (add2 A B).
Proof.
  intros [HsA HqA] [HsB HqB]. split.
  - intros i j Hi Hj. unfold add2. rewrite (HsA i j), (HsB i j) by assumption. reflexivity.
  - intros x. rewrite quad_add. specialize (HqA x). specialize (HqB x). lra.
Qed.

Lemma psd_scale n c A : 0 <= c -> pos_semi_def n A -> pos_semi_def n (scale2 c A).
Proof.
  intros Hc [Hs Hq]. split.
  - intros i j Hi Hj. unfold scale2. rewrite (Hs i j) by assumption. reflexivity.
  - intros x. rewrite quad_scale. apply Rmult_le_pos; [assumption|apply Hq].
Qed.

Lemma psd_outer n r : pos_semi_def n (outer r r).
Proof.
  split.
  - intros i j _ _. unfold outer. ring.
  - intros x. rewrite quad_outer. apply pow2_ge_0.
Qed.

Lemma psd_diag_square n v : pos_semi_def n (diag (square v)).
Proof.
  split.
  - intros i j _ _. unfold diag. rewrite (Nat.eqb_sym j i).
    destruct (Nat.eqb i j) eqn:E; [|reflexivity].
    apply Nat.eqb_eq in E. subst. reflexivity.
  - intros x. rewrite quad_diag. apply sum_n_nonneg. intros i _.
    unfold square. apply Rmult_le_pos; apply pow2_ge_0.
Qed.

Lemma psd_zeros n : pos_semi_def n zeros2.
Proof.
  split; [intros i j _ _; reflexivity|]. intros x. rewrite quad_zeros. lra.
Qed.

Lemma psd_congruence n m B P :
  pos_semi_def m P -> pos_semi_def n (dot m B (dot m P (T B))).
Proof.
  intros [Hs Hq]. split; [apply symmetric_congruence, Hs|].
  intros x. rewrite quad_congruence. apply Hq.
Qed.

Lemma psd_multi_dot n m B P :
  pos_semi_def m P -> pos_semi_def n (linalg.multi_dot n m m n B P (T B)).
Proof.
  intros HP. apply (psd_ext n (dot m B (dot m P (T B)))); [|apply psd_congruence, HP].
  intros i j _ _. symmetry. apply multi_dot_eq.
Qed.

Create HintDb psd.
#[local] Hint Resolve psd_add psd_scale psd_outer psd_diag_square psd_zeros
  psd_multi_dot : psd.

(** ** Triangular solves *)

Lemma solve_lower_ext n L L' b b' :
  eq2 n n L L' -> eq1 n b b' ->
  eq1 n (linalg.solve_lower n L b) (linalg.solve_lower n L' b').
Proof.
  revert L L' b b'; induction n as [|n IH]; intros L L' b b' HL Hb i Hi; [lia|].
  simpl. rewrite <- (HL O O), <- (Hb O) by lia.
  destruct i as [|i]; [reflexivity|].
  apply IH; [| |lia].
  - intros k l Hk Hl. apply HL; lia.
  - intros k Hk. rewrite <- (Hb (S k)), <- (HL (S k) O) by lia. reflexivity.
Qed.

Lemma solve_lower_correct n L b :
  lower_triangular n L -> nonzero_diagonal n L ->
  eq1 n (dot_mv n L (linalg.solve_lower n L b)) b.
Proof.
  revert L b; induction n as [|n IH]; intros L b HL HD i Hi; [lia|].
  assert (H0 : L O O <> 0) by (apply HD; lia).
  unfold dot_mv. simpl. destruct i as [|i].
  - rewrite sum_n_zero; [field; assumption|].
    intros l Hl. rewrite (HL O (S l)) by lia. ring.
  - specialize (IH (fun i j => L (S i) (S j))
                   (fun i => b (S i) - L (S i) O * (b O / L O O))).
    unfold dot_mv in IH. rewrite IH; [ring| | |lia].
    + intros k l Hkl Hl. apply HL; lia.
    + intros k Hk. apply HD. lia.
Qed.

Lemma solve_lower_left n L x :
  lower_triangular n L -> nonzero_diagonal n L ->
  eq1 n (linalg.solve_lower n L (dot_mv n L x)) x.
Proof.
  revert L x; induction n as [|n IH]; intros L x HL HD i Hi; [lia|].
  assert (H0 : L O O <> 0) by (apply HD; lia).
  assert (E0 : dot_mv (S n) L x O / L O O = x O).
  { unfold dot_mv. simpl. rewrite sum_n_zero; [field; assumption|].
    intros l Hl. rewrite (HL O (S l)) by lia. ring. }
  simpl. destruct i as [|i]; [exact E0|].
  rewrite E0.
  rewrite (solve_lower_ext n _ (fun i j => L (S i) (S j)) _
             (dot_mv n (fun i j => L (S i) (S j)) (fun l => x (S l)))) by
    (try (intros k l _ _; reflexivity); try (intros k _; unfold dot_mv; simpl; ring); lia).
  apply (IH (fun i j => L (S i) (S j)) (fun l => x (S l))); [| |lia].
  - intros k l Hkl Hl. apply HL; lia.
  - intros k Hk. apply HD. lia.
Qed.

(** A lower-triangular array with non-zero diagonal cancels on the left. *)
Lemma lower_cancel n L x y :
  lower_triangular n L -> nonzero_diagonal n L ->
  eq1 n (dot_mv n L x) (dot_mv n L y) -> eq1 n x y.
Proof.
  intros HL HD E i Hi.
  rewrite <- (solve_lower_left n L x HL HD i Hi), <- (solve_lower_left n L y HL HD i Hi).
  apply solve_lower_ext; [intros k l _ _; reflexivity|assumption|assumption].
Qed.

Lemma solve_upper_correct n U b :
  upper_triangular n U -> nonzero_diagonal n U ->
  eq1 n (dot_mv n U (linalg.solve_upper n U b)) b.
Proof.
  revert U b; induction n as [|n IH]; intros U b HU HD i Hi; [lia|].
  assert (H0 : U O O <> 0) by (apply HD; lia).
  unfold dot_mv. simpl. destruct i as [|i].
  - field; assumption.
  - rewrite (HU (S i) O) by lia.
    specialize (IH (fun i j => U (S i) (S j)) (fun i => b (S i))).
    unfold dot_mv in IH. rewrite IH; [ring| | |lia].
    + intros k l Hkl Hl. apply HU; lia.
    + intros k Hk. apply HD. lia.
Qed.

(** ** The Cholesky factor *)

Lemma cholesky_S n a L :
  linalg.cholesky (S n) a = Ok L ->
  0 < a O O /\
  exists L', linalg.cholesky n (schur a) = Ok L' /\
    L = (fun i j =>
           match i, j with
           | O, O => sqrt (a O O)
           | O, S _ => 0
           | S i', O => a (S i') O / sqrt (a O O)
           | S i', S j' => L' i' j'
           end).
Proof.
  simpl. change (fun i j => a (S i) (S j) - a (S i) O * a (S j) O / a O O) with (schur a).
  destruct (Rlt_dec 0 (a O O)) as [Hp|]; [|discriminate].
  destruct (linalg.cholesky n (schur a)) as [L'|]; [|discriminate].
  intros E. injection E as E. split; [assumption|]. exists L'. split; [reflexivity|].
  symmetry. exact E.
Qed.

Lemma cholesky_lower n a L :
  linalg.cholesky n a = Ok L -> forall i j, (i < j)%nat -> L i j = 0.
Proof.
  revert a L; induction n as [|n IH]; intros a L E i j Hij.
  - simpl in E. injection E as E. subst L. reflexivity.
  - apply cholesky_S in E. destruct E as [_ [L' [E' ->]]].
    destruct i as [|i], j as [|j]; try lia; [reflexivity|].
    apply (IH _ _ E'). lia.
Qed.

Lemma cholesky_diag_pos n a L :
  linalg.cholesky n a = Ok L -> forall i, (i < n)%nat -> 0 < L i i.
Proof.
  revert a L; induction n as [|n IH]; intros a L E i Hi; [lia|].
  apply cholesky_S in E. destruct E as [Hp [L' [E' ->]]].
  destruct i as [|i]; [apply sqrt_lt_R0, Hp|].
  apply (IH _ _ E'). lia.
Qed.

(** [L L^T] is the argument on its lower triangle. *)
Lemma cholesky_factorization n a L :
  linalg.cholesky n a = Ok L ->
  forall i j, (j <= i)%nat -> (i < n)%nat -> dot n L (T L) i j = a i j.
Proof.
  revert a L; induction n as [|n IH]; intros a L E i j Hji Hi; [lia|].
  apply cholesky_S in E. destruct E as [Hp [L' [E' ->]]].
  assert (Hs : sqrt (a O O) * sqrt (a O O) = a O O) by (apply sqrt_sqrt; lra).
  assert (Hs0 : sqrt (a O O) <> 0) by (apply Rgt_not_eq, sqrt_lt_R0, Hp).
  unfold dot, T. simpl. destruct i as [|i], j as [|j]; try lia.
  - rewrite sum_n_zero by (intros; ring). lra.
  - rewrite sum_n_zero by (intros; ring). field. assumption.
  - specialize (IH _ _ E' i j). unfold dot, T in IH. rewrite IH by lia.
    unfold schur. rewrite <- Hs at 3. field. assumption.
Qed.

Lemma cholesky_factorization_sym n a L :
  symmetric n a -> linalg.cholesky n a = Ok L -> eq2 n n (dot n L (T L)) a.
Proof.
  intros Hs E i j Hi Hj. destruct (le_lt_dec j i) as [H|H].
  - apply (cholesky_factorization n a L E); assumption.
  - rewrite (Hs i j Hi Hj). rewrite <- (cholesky_factorization n a L E j i) by lia.
    unfold dot, T. apply sum_n_ext. intros l _. ring.
Qed.

(** The factor is the only lower-triangular array with positive diagonal
    whose product with its transpose is the argument on the lower
    triangle: a routine that meets this contract returns it. *)
Lemma cholesky_unique n a L :
  lower_triangular n L ->
  (forall i, (i < n)%nat -> 0 < L i i) ->
  (forall i j, (j <= i)%nat -> (i < n)%nat -> dot n L (T L) i j = a i j) ->
  exists L0, linalg.cholesky n a = Ok L0 /\ eq2 n n L0 L.
Proof.
  revert a L; induction n as [|n IH]; intros a L Hl Hd Hf.
  - exists zeros2. split; [reflexivity|]. intros i j Hi; lia.
  - assert (Hp : 0 < L O O) by (apply Hd; lia).
    assert (Hrow : forall l, (l < n)%nat -> L O (S l) = 0)
      by (intros l Hl'; apply Hl; lia).
    assert (H00 : a O O = L O O * L O O).
    { rewrite <- (Hf O O) by lia. unfold dot, T. simpl.
      rewrite sum_n_zero; [ring|]. intros l Hl'. rewrite (Hrow l Hl'). ring. }
    assert (Hcol : forall i, (i < n)%nat -> a (S i) O = L (S i) O * L O O).
    { intros i Hi. rewrite <- (Hf (S i) O) by lia. unfold dot, T. simpl.
      rewrite sum_n_zero; [ring|]. intros l Hl'. rewrite (Hrow l Hl'). ring. }
    assert (Hsq : sqrt (a O O) = L O O) by (rewrite H00; apply sqrt_square; lra).
    destruct (IH (schur a) (fun i j => L (S i) (S j))) as [L0' [E' Heq]].
    + intros i j Hij Hj. apply Hl; lia.
    + intros i Hi. apply Hd. lia.
    + intros i j Hji Hi. unfold schur.
      rewrite <- (Hf (S i) (S j)) by lia.
      rewrite (Hcol i), (Hcol j), H00 by lia.
      unfold dot, T. simpl. field. lra.
    + simpl.
      change (fun i j => a (S i) (S j) - a (S i) O * a (S j) O / a O O) with (schur a).
      rewrite E'. destruct (Rlt_dec 0 (a O O)) as [_|Hn]; [|exfalso; apply Hn; nra].
      eexists. split; [reflexivity|].
      intros i j Hi Hj. destruct i as [|i], j as [|j].
      * exact Hsq.
      * symmetry. apply Hrow. lia.
      * rewrite Hsq, (Hcol i) by lia. field. lra.
      * apply Heq; lia.
Qed.

(** ** Positive definite arrays and the Cholesky factor *)

Lemma symmetric_schur n a : symmetric (S n) a -> symmetric n (schur a).
Proof.
  intros Hs i j Hi Hj. unfold schur. rewrite (Hs (S i) (S j)) by lia.
  unfold Rdiv. ring.
Qed.

(** Completing the square at the first pivot. *)
Lemma quad_schur n a x :
  symmetric (S n) a -> a O O <> 0 ->
  quad (S n) a x =
  a O O * (x O + sum_n n (fun l => a (S l) O * x (S l)) / a O O) ^ 2
  + quad n (schur a) (fun i => x (S i)).
Proof.
  intros Hs H0.
  set (by_ := sum_n n (fun l => a (S l) O * x (S l))).
  set (qC := sum_n n (fun i => x (S i) * sum_n n (fun l => a (S i) (S l) * x (S l)))).
  assert (E1 : quad n (schur a) (fun i => x (S i)) = qC - by_ * by_ / a O O).
  { unfold quad, dot_mv, schur.
    rewrite (sum_n_ext n _
               (fun i => x (S i) * sum_n n (fun l => a (S i) (S l) * x (S l))
                         - (a (S i) O * x (S i)) * (by_ / a O O))).
    2:{ intros i _.
        rewrite (sum_n_ext n _
                   (fun l => a (S i) (S l) * x (S l)
                             - (a (S i) O / a O O) * (a (S l) O * x (S l))))
          by (intros l _; unfold Rdiv; ring).
        rewrite sum_n_minus, sum_n_scal_l. fold by_. unfold Rdiv. ring. }
    rewrite sum_n_minus, sum_n_scal_r. fold by_ qC. unfold Rdiv. ring. }
  rewrite E1. unfold quad, dot_mv. simpl.
  rewrite (sum_n_ext n (fun l => a O (S l) * x (S l)) (fun l => a (S l) O * x (S l)))
    by (intros l Hl; rewrite (Hs O (S l)) by lia; reflexivity).
  fold by_.
  rewrite (sum_n_ext n _
             (fun i => (a (S i) O * x (S i)) * x O
                       + x (S i) * sum_n n (fun l => a (S i) (S l) * x (S l))))
    by (intros i _; ring).
  rewrite sum_n_plus, sum_n_scal_r. fold by_ qC. field. assumption.
Qed.

Lemma quad_zero_vector n A x : eq1 n x zeros1 -> quad n A x = 0.
Proof.
  intros Hx. unfold quad. apply sum_n_zero. intros i Hi.
  rewrite (Hx i Hi). unfold zeros1. ring.
Qed.

Lemma zero_or_nonzero n x : eq1 n x zeros1 \/ nonzero n x.
Proof.
  induction n as [|n IH]; [left; intros i Hi; lia|].
  destruct IH as [Hz|[i [Hi Hx]]].
  - destruct (Req_dec (x n) 0) as [E|E].
    + left. intros i Hi. destruct (Nat.eq_dec i n) as [->|Hn]; [exact E|].
      apply Hz. lia.
    + right. exists n. split; [lia|exact E].
  - right. exists i. split; [lia|exact Hx].
Qed.

Lemma pos_def_head n a : pos_def (S n) a -> 0 < a O O.
Proof.
  intros [_ Hq].
  specialize (Hq (fun i => match i with O => 1 | S _ => 0 end)).
  assert (E : quad (S n) a (fun i => match i with O => 1 | S _ => 0 end) = a O O).
  { unfold quad, dot_mv. simpl.
    rewrite (sum_n_zero n (fun l => a O (S l) * 0)) by (intros; ring).
    rewrite sum_n_zero by (intros; ring). ring. }
  rewrite <- E. apply Hq. exists O. split; [lia|lra].
Qed.

Lemma pos_def_schur n a : pos_def (S n) a -> pos_def n (schur a).
Proof.
  intros Hpd. pose proof (pos_def_head n a Hpd) as Hp. destruct Hpd as [Hs Hq].
  split; [apply symmetric_schur, Hs|]. intros y [i [Hi Hy]].
  set (x := fun i => match i with
                     | O => - (sum_n n (fun l => a (S l) O * y l) / a O O)
                     | S i' => y i'
                     end).
  assert (E : quad (S n) a x = quad n (schur a) y).
  { rewrite quad_schur by (assumption || lra). simpl.
    replace (- (sum_n n (fun l => a (S l) O * y l) / a O O)
             + sum_n n (fun l => a (S l) O * y l) / a O O) with 0 by ring.
    rewrite !Rmult_0_l, Rmult_0_r, Rplus_0_l. reflexivity. }
  rewrite <- E. apply Hq. exists (S i). split; [lia|exact Hy].
Qed.

(** A positive definite array has a Cholesky factor... *)
Lemma pos_def_cholesky n a : pos_def n a -> exists L, linalg.cholesky n a = Ok L.
Proof.
  revert a; induction n as [|n IH]; intros a Hpd; [exists zeros2; reflexivity|].
  pose proof (pos_def_head n a Hpd) as Hp.
  destruct (IH _ (pos_def_schur n a Hpd)) as [L' E'].
  simpl. change (fun i j => a (S i) (S j) - a (S i) O * a (S j) O / a O O) with (schur a).
  rewrite E'. destruct (Rlt_dec 0 (a O O)) as [_|Hn]; [|contradiction].
  eexists. reflexivity.
Qed.

(** ... and a symmetric array with a Cholesky factor is positive definite. *)
Lemma cholesky_pos_def n a L :
  symmetric n a -> linalg.cholesky n a = Ok L -> pos_def n a.
Proof.
  revert a L; induction n as [|n IH]; intros a L Hs E.
  - split; [assumption|]. intros x [i [Hi _]]. lia.
  - apply cholesky_S in E. destruct E as [Hp [L' [E' _]]].
    destruct (IH _ _ (symmetric_schur n a Hs) E') as [_ Hq].
    split; [assumption|]. intros x [i [Hi Hx]].
    rewrite quad_schur by (assumption || lra).
    set (t := x O + sum_n n (fun l => a (S l) O * x (S l)) / a O O).
    assert (Ht : 0 <= a O O * t ^ 2)
      by (apply Rmult_le_pos; [lra|apply pow2_ge_0]).
    destruct (zero_or_nonzero n (fun i => x (S i))) as [Hz|Hnz].
    + rewrite (quad_zero_vector n _ _ Hz).
      assert (Et : t = x O).
      { unfold t. rewrite sum_n_zero; [field; lra|].
        intros l Hl. rewrite (Hz l Hl). unfold zeros1. ring. }
      assert (Hx0 : x O <> 0).
      { destruct i as [|i]; [exact Hx|]. exfalso. apply Hx. apply (Hz i). lia. }
      rewrite Et. assert (0 < x O ^ 2) by (apply pow_nonzero with (n := 2%nat) in Hx0;
        pose proof (pow2_ge_0 (x O)); lra).
      assert (0 < a O O * x O ^ 2) by (apply Rmult_lt_0_compat; assumption). lra.
    + specialize (Hq _ Hnz). lra.
Qed.

Lemma cholesky_fails_iff n a :
  symmetric n a -> (linalg.cholesky n a = LinAlgError <-> ~ pos_def n a).
Proof.
  intros Hs. split.
  - intros E Hpd. destruct (pos_def_cholesky n a Hpd) as [L EL]. congruence.
  - intros Hn. destruct (linalg.cholesky n a) as [L|] eqn:E; [|reflexivity].
    exfalso. apply Hn. apply (cholesky_pos_def n a L Hs E).
Qed.

(** The factorization reads the lower triangle only: on an argument that
    is not symmetric it succeeds or fails as on [lower_sym] of it. *)
Lemma cholesky_lower_only n a b L :
  (forall i j, (j <= i)%nat -> (i < n)%nat -> a i j = b i j) ->
  linalg.cholesky n a = Ok L ->
  exists L', linalg.cholesky n b = Ok L' /\ eq2 n n L' L.
Proof.
  intros Hab E. apply cholesky_unique.
  - intros i j Hij _. apply (cholesky_lower n a L E), Hij.
  - apply (cholesky_diag_pos n a L E).
  - intros i j Hji Hi. rewrite <- (Hab i j Hji Hi).
    apply (cholesky_factorization n a L E); assumption.
Qed.

Lemma symmetric_lower_sym n a : symmetric n (lower_sym a).
Proof.
  intros i j _ _. unfold lower_sym.
  destruct (Nat.leb j i) eqn:E1, (Nat.leb i j) eqn:E2; try reflexivity.
  - apply Nat.leb_le in E1, E2. replace j with i by lia. reflexivity.
  - apply Nat.leb_gt in E1, E2. lia.
Qed.

Lemma cholesky_fails_iff_lower n a :
  linalg.cholesky n a = LinAlgError <-> ~ pos_def n (lower_sym a).
Proof.
  assert (Hl : forall i j, (j <= i)%nat -> (i < n)%nat -> lower_sym a i j = a i j).
  { intros i j Hji _. unfold lower_sym. apply Nat.leb_le in Hji. rewrite Hji. reflexivity. }
  split.
  - intros E Hpd. destruct (pos_def_cholesky n _ Hpd) as [L EL].
    destruct (cholesky_lower_only n (lower_sym a) a L Hl EL) as [L' [E' _]]. congruence.
  - intros Hn. destruct (linalg.cholesky n a) as [L|] eqn:E; [|reflexivity].
    exfalso. apply Hn.
    destruct (cholesky_lower_only n a (lower_sym a) L) as [L' [E' _]];
      [intros i j Hji Hi; symmetry; apply Hl; assumption|exact E|].
    apply (cholesky_pos_def n _ L' (symmetric_lower_sym n a) E').
Qed.

(** ** Solving with the Cholesky factor *)

Lemma cholesky_triangular n a L :
  linalg.cholesky n a = Ok L ->
  lower_triangular n L /\ upper_triangular n (T L) /\
  nonzero_diagonal n L /\ nonzero_diagonal n (T L).
Proof.
  intros E. pose proof (cholesky_lower n a L E) as Hl.
  pose proof (cholesky_diag_pos n a L E) as Hd.
  repeat split.
  - intros i j Hij _. apply Hl, Hij.
  - intros i j Hji _. unfold T. apply Hl, Hji.
  - intros i Hi. apply Rgt_not_eq, Hd, Hi.
  - intros i Hi. unfold T. apply Rgt_not_eq, Hd, Hi.
Qed.

(** [cho_solve] solves [a x = b] in every column. *)
Lemma cho_solve_correct n a L b :
  symmetric n a -> linalg.cholesky n a = Ok L ->
  forall i j, (i < n)%nat -> dot n a (linalg.cho_solve n (L, true) b) i j = b i j.
Proof.
  intros Hs E i j Hi.
  destruct (cholesky_triangular n a L E) as [Hl [Hu [Hd Hd']]].
  set (col := fun i' => b i' j).
  set (y := linalg.solve_lower n L col).
  set (x := linalg.solve_upper n (T L) y).
  change (dot_mv n a x i = col i).
  rewrite (dot_mv_ext n a (dot n L (T L)) x x i)
    by (try (intros l Hl'; symmetry; apply (cholesky_factorization_sym n a L Hs E); assumption);
        intros l _; reflexivity).
  rewrite dot_mv_dot.
  rewrite (dot_mv_ext n L L _ y i);
    [apply solve_lower_correct; assumption | reflexivity |].
  apply solve_upper_correct; assumption.
Qed.

Lemma dot_ext k A A' B B' i j :
  (forall l, (l < k)%nat -> A i l = A' i l) ->
  (forall l, (l < k)%nat -> B l j = B' l j) ->
  dot k A B i j = dot k A' B' i j.
Proof.
  intros HA HB. unfold dot. apply sum_n_ext. intros l Hl.
  rewrite (HA l Hl), (HB l Hl). reflexivity.
Qed.

Lemma eye_sym i j : eye i j = eye j i.
Proof. unfold eye. rewrite Nat.eqb_sym. reflexivity. Qed.

(** A right inverse of a symmetric array is symmetric, and is its inverse. *)
Lemma right_inverse_symmetric n A B :
  symmetric n A -> eq2 n n (dot n A B) eye -> symmetric n B.
Proof.
  intros Hs HB i j Hi Hj.
  transitivity (dot n (dot n (T B) A) B i j).
  - rewrite (dot_ext n _ eye B B i j); [symmetry; apply dot_eye_l, Hi| |reflexivity].
    intros l Hl. rewrite eye_sym, <- (HB l i Hl Hi).
    unfold dot, T. apply sum_n_ext. intros k Hk. rewrite (Hs l k Hl Hk). ring.
  - rewrite dot_assoc.
    rewrite (dot_ext n (T B) (T B) _ eye i j); [apply (dot_eye_r n (T B) i j Hj)|reflexivity|].
    intros l Hl. apply HB; assumption.
Qed.

Lemma right_inverse_inverse n A B :
  symmetric n A -> eq2 n n (dot n A B) eye -> inverse n A B.
Proof.
  intros Hs HB. split; [assumption|]. intros i j Hi Hj.
  pose proof (right_inverse_symmetric n A B Hs HB) as HsB.
  rewrite eye_sym, <- (HB j i Hj Hi). unfold dot. apply sum_n_ext. intros l Hl.
  rewrite (HsB i l Hi Hl), (Hs l j Hl Hj). ring.
Qed.

(** A positive definite array has an inverse. *)
Lemma pos_def_inverse n A : pos_def n A -> exists B, inverse n A B.
Proof.
  intros Hpd. destruct (pos_def_cholesky n A Hpd) as [L E]. destruct Hpd as [Hs _].
  exists (linalg.cho_solve n (L, true) eye). apply right_inverse_inverse; [assumption|].
  intros i j Hi _. apply cho_solve_correct; assumption.
Qed.

(** The squared norm of the forward solve is the quadratic form of the
    inverse. *)
Lemma solve_lower_mahalanobis n a L ainv d :
  symmetric n a -> linalg.cholesky n a = Ok L -> inverse n a ainv ->
  sum_n n (fun k => linalg.solve_lower n L d k * linalg.solve_lower n L d k) =
  sum_n n (fun i => d i * dot_mv n ainv d i).
Proof.
  intros Hs E [Hinv _].
  destruct (cholesky_triangular n a L E) as [Hl [_ [Hd _]]].
  set (z := linalg.solve_lower n L d). set (w := dot_mv n ainv d).
  assert (Hz : eq1 n (dot_mv n (T L) w) z).
  { apply (lower_cancel n L); [assumption|assumption|]. intros i Hi.
    transitivity (d i); [|symmetry; apply (solve_lower_correct n L d Hl Hd i Hi)].
    rewrite <- dot_mv_dot.
    rewrite (dot_mv_ext n _ a w w i)
      by (try (intros l Hl'; apply (cholesky_factorization_sym n a L Hs E); assumption);
          intros l _; reflexivity).
    unfold w. rewrite <- dot_mv_dot.
    rewrite (dot_mv_ext n _ eye d d i)
      by (try (intros l Hl'; apply Hinv; assumption); intros l _; reflexivity).
    apply dot_mv_eye, Hi. }
  rewrite (sum_n_ext n (fun i => d i * w i) (fun i => w i * dot_mv n L z i))
    by (intros i Hi; unfold z; rewrite (solve_lower_correct n L d Hl Hd i Hi); ring).
  rewrite dot_adjoint. apply sum_n_ext. intros k Hk.
  rewrite <- dot_mv_T, (Hz k Hk). reflexivity.
Qed.

Lemma solve_lower_scale n L t u :
  lower_triangular n L -> nonzero_diagonal n L ->
  eq1 n (linalg.solve_lower n L (fun i => t * u i))
        (fun i => t * linalg.solve_lower n L u i).
Proof.
  intros Hl Hd i Hi.
  rewrite <- (solve_lower_left n L (fun i => t * linalg.solve_lower n L u i) Hl Hd i Hi).
  apply solve_lower_ext; [intros k l _ _; reflexivity| |assumption].
  intros k Hk. rewrite <- (solve_lower_correct n L u Hl Hd k Hk) at 1.
  unfold dot_mv. rewrite <- sum_n_scal_l. apply sum_n_ext. intros l _. ring.
Qed.

(** ** The model matrices *)

Ltac index_cases i :=
  repeat (destruct i as [|i]; [|try lia]); try lia.

Ltac eval_example :=
  cbv [add1 sub1 dot_vm dot_mv dot sum_n T outer diag square array nth eye
       _update_mat example_mean example_measurement spec_update_std
       Nat.eqb Nat.ltb Nat.leb zeros1 zeros2].

(** [position += velocity * dt], velocities unchanged. *)
Lemma motion_mat_dot_mv mean :
  (forall i, (i < 4)%nat -> dot_mv 8 _motion_mat mean i = mean i + dt * mean (i + 4)%nat) /\
  (forall i, (4 <= i < 8)%nat -> dot_mv 8 _motion_mat mean i = mean i).
Proof.
  split; intros i Hi; index_cases i;
    cbv [dot_mv sum_n _motion_mat fold_left seq ndim setitem eye Nat.eqb andb Nat.add dt];
    ring.
Qed.

(** The entries of the transition matrix: ones on the diagonal and at
    [(i, i + 4)]. *)
Lemma motion_mat_entries :
  eq2 8 8 _motion_mat
      (fun i j => if Nat.eqb i j || Nat.eqb j (i + 4) then 1 else 0).
Proof.
  intros i j Hi Hj. index_cases i; index_cases j; reflexivity.
Qed.

Lemma update_mat_dot_mv mean : eq1 8 (dot_mv 8 _update_mat mean) mean.
Proof. intros i Hi. apply dot_mv_eye, Hi. Qed.

(** [H P H^T] is the block of [P] over the measured components. *)
Lemma update_mat_block P :
  eq2 8 8 (dot 8 _update_mat (dot 8 P (T _update_mat))) P.
Proof.
  intros i j Hi Hj. unfold _update_mat. rewrite dot_eye_l by assumption.
  rewrite (dot_ext 8 P P (T eye) eye i j);
    [apply dot_eye_r, Hj | reflexivity | intros l _; unfold T; apply eye_sym].
Qed.

(** ** What [project] computes *)

Lemma project_std_spec mean confidence :
  eq2 4 4 (diag (square (array (project_std mean confidence))))
          (diag (square (spec_project_std mean confidence))).
Proof.
  intros i j Hi Hj. unfold diag. destruct (Nat.eqb i j); [|reflexivity].
  unfold square, project_std, spec_project_std, scale1, array, _std_weight_position.
  index_cases i; simpl; ring.
Qed.

Lemma project_measurement_noise self mean covariance confidence :
  eq2 4 4 (_measurement_noise (snd (project self mean covariance confidence)))
          (spec_R_new (_measurement_noise self) (_residual self) mean covariance confidence).
Proof.
  intros i j Hi Hj. unfold project, spec_R_new.
  cbn [snd _measurement_noise set_measurement_noise].
  unfold add2, scale2. rewrite multi_dot_eq.
  rewrite (project_std_spec mean confidence i j Hi Hj).
  unfold _forgetting_factor. lra.
Qed.

Lemma project_cov self mean covariance confidence :
  eq2 4 4 (snd (fst (project self mean covariance confidence)))
          (add2 (dot 8 _update_mat (dot 8 covariance (T _update_mat)))
                (spec_R_new (_measurement_noise self) (_residual self)
                            mean covariance confidence)).
Proof.
  intros i j Hi Hj.
  pose proof (project_measurement_noise self mean covariance confidence i j Hi Hj) as E.
  unfold project in *. cbn [snd fst] in *. unfold add2 at 1. rewrite E.
  unfold add2 at 1. rewrite multi_dot_eq. reflexivity.
Qed.

Lemma project_frame self mean covariance confidence :
  _process_noise (snd (project self mean covariance confidence)) = _process_noise self /\
  _residual (snd (project self mean covariance confidence)) = _residual self /\
  image_width (snd (project self mean covariance confidence)) = image_width self /\
  image_height (snd (project self mean covariance confidence)) = image_height self.
Proof. repeat split. Qed.

Lemma symmetric_zeros n : symmetric n zeros2.
Proof. intros i j _ _. reflexivity. Qed.

Lemma project_cov_symmetric self mean covariance confidence :
  symmetric 8 covariance -> symmetric 4 (_measurement_noise self) ->
  symmetric 4 (snd (fst (project self mean covariance confidence))).
Proof.
  intros HP HR i j Hi Hj.
  rewrite (project_cov self mean covariance confidence i j Hi Hj).
  rewrite (project_cov self mean covariance confidence j i Hj Hi).
  unfold add2, spec_R_new, add2, scale2, outer.
  rewrite (update_mat_block covariance i j), (update_mat_block covariance j i) by lia.
  rewrite (HP i j), (HR i j) by lia.
  assert (Ed : diag (square (spec_project_std mean confidence)) i j
             = diag (square (spec_project_std mean confidence)) j i).
  { unfold diag. rewrite (Nat.eqb_sym j i). destruct (Nat.eqb i j) eqn:E; [|reflexivity].
    apply Nat.eqb_eq in E. subst. reflexivity. }
  rewrite Ed. ring.
Qed.

(** ** What [gating_distance] does to the instance *)

Lemma gating_distance_state self mean covariance measurements only_position :
  snd (gating_distance self mean covariance measurements only_position) =
  snd (project self mean covariance 0).
Proof.
  unfold gating_distance.
  destruct (linalg.cholesky _ _); reflexivity.
Qed.

(** ** Instances without an update *)

Lemma before_first_update_noise self :
  before_first_update self ->
  _process_noise self = zeros2 /\ _residual self = zeros1.
Proof.
  induction 1 as [|w h self _ IH|self m P _ IH|self m P c _ IH|self m P ms op _ IH].
  - split; reflexivity.
  - exact IH.
  - exact IH.
  - exact IH.
  - rewrite gating_distance_state. exact IH.
Qed.

Lemma spec_R_new_ext R1 R2 r mean P confidence :
  eq2 4 4 R1 R2 ->
  eq2 4 4 (spec_R_new R1 r mean P confidence) (spec_R_new R2 r mean P confidence).
Proof.
  intros E i j Hi Hj. unfold spec_R_new, add2, scale2. rewrite (E i j Hi Hj). reflexivity.
Qed.

(** ** What [update] computes *)

Lemma update_ok self mean covariance measurement confidence L :
  linalg.cholesky 4 (snd (fst (project self mean covariance confidence))) = Ok L ->
  let pr := project self mean covariance confidence in
  let self1 := snd pr in
  let nu := innovation measurement (fst (fst pr)) in
  let K := kalman_gain (L, true) covariance in
  let Q_new :=
    add2 (scale2 _forgetting_factor
                 (add2 (_process_noise self1) (diag (square (array (update_std self1 mean))))))
         (scale2 (1 - _forgetting_factor) (linalg.multi_dot 8 4 4 8 K (outer nu nu) (T K))) in
  let new_mean := add1 mean (dot_vm 4 nu (T K)) in
  let I_KH := sub2 _I (dot 4 K _update_mat) in
  let new_covariance :=
    add2 (linalg.multi_dot 8 8 8 8 I_KH covariance (T I_KH))
         (linalg.multi_dot 8 4 4 8 K (_measurement_noise self1) (T K)) in
  update self mean covariance measurement confidence =
  (Ok (new_mean, new_covariance),
   set_residual (sub1 measurement (dot_mv 8 _update_mat new_mean))
                (set_process_noise Q_new self1)).
Proof.
  intros E. cbv zeta. unfold update, linalg.cho_factor. rewrite E. reflexivity.
Qed.

Lemma update_error self mean covariance measurement confidence :
  linalg.cholesky 4 (snd (fst (project self mean covariance confidence))) = LinAlgError ->
  update self mean covariance measurement confidence =
  (LinAlgError, snd (project self mean covariance confidence)).
Proof.
  intros E. unfold update, linalg.cho_factor. rewrite E. reflexivity.
Qed.

Lemma update_succeeds self mean covariance measurement confidence :
  pos_def 4 (snd (fst (project self mean covariance confidence))) ->
  exists mean' covariance' self',
    update self mean covariance measurement confidence = (Ok (mean', covariance'), self').
Proof.
  intros Hpd. destruct (pos_def_cholesky 4 _ Hpd) as [L E].
  pose proof (update_ok self mean covariance measurement confidence L E) as Hu.
  cbv zeta in Hu. eexists _, _, _. exact Hu.
Qed.

Lemma update_stored_residual
      self mean covariance measurement confidence mean' covariance' self' :
  update self mean covariance measurement confidence = (Ok (mean', covariance'), self') ->
  _residual self' = sub1 measurement (dot_mv 8 _update_mat mean').
Proof.
  intros Hu.
  destruct (linalg.cholesky 4 (snd (fst (project self mean covariance confidence))))
    as [L|] eqn:E.
  - rewrite (update_ok self mean covariance measurement confidence L E) in Hu.
    cbv zeta in Hu. injection Hu as Em _ Es. subst mean' self'. reflexivity.
  - rewrite (update_error self mean covariance measurement confidence E) in Hu.
    discriminate.
Qed.

(** No method assigns the image size. *)
Lemma update_image_size self mean covariance measurement confidence :
  image_width (snd (update self mean covariance measurement confidence)) = image_width self /\
  image_height (snd (update self mean covariance measurement confidence)) = image_height self.
Proof.
  destruct (linalg.cholesky 4 (snd (fst (project self mean covariance confidence))))
    as [L|] eqn:E.
  - rewrite (update_ok self mean covariance measurement confidence L E).
    split; reflexivity.
  - rewrite (update_error self mean covariance measurement confidence E).
    split; reflexivity.
Qed.

(** The gain solves [K Sigma = P H^T]. *)
Lemma kalman_gain_solves Sigma L P :
  symmetric 4 Sigma -> linalg.cholesky 4 Sigma = Ok L ->
  eq2 8 4 (dot 4 (kalman_gain (L, true) P) Sigma) (dot 8 P (T _update_mat)).
Proof.
  intros Hs E i j Hi Hj. unfold kalman_gain.
  set (B := T (dot 8 P (T _update_mat))).
  transitivity (dot 4 Sigma (linalg.cho_solve 4 (L, true) B) j i).
  - unfold dot, T. apply sum_n_ext. intros l Hl. rewrite (Hs j l Hj Hl). ring.
  - rewrite (cho_solve_correct 4 Sigma L B Hs E j i Hj). reflexivity.
Qed.

Lemma kalman_gain_inverse Sigma Sinv L P :
  symmetric 4 Sigma -> linalg.cholesky 4 Sigma = Ok L -> inverse 4 Sigma Sinv ->
  eq2 8 4 (kalman_gain (L, true) P) (dot 4 (dot 8 P (T _update_mat)) Sinv).
Proof.
  intros Hs E [Hinv _] i j Hi Hj.
  set (K := kalman_gain (L, true) P).
  rewrite <- (dot_eye_r 4 K i j Hj).
  rewrite (dot_ext 4 K K eye (dot 4 Sigma Sinv) i j);
    [|reflexivity|intros l Hl; symmetry; apply Hinv; assumption].
  rewrite <- dot_assoc. apply dot_ext; [|reflexivity].
  intros l Hl. apply (kalman_gain_solves Sigma L P Hs E); assumption.
Qed.

Lemma update_std_spec self mean :
  eq2 8 8 (diag (square (array (update_std self mean))))
          (diag (square (spec_update_std
                           (sqrt ((image_width self / 2 - mean 0%nat) ^ 2
                                  + (image_height self / 2 - mean 1%nat) ^ 2)) mean))).
Proof.
  intros i j Hi Hj. unfold diag. destruct (Nat.eqb i j); [|reflexivity].
  unfold square, update_std, spec_update_std, array, distance_to_image_center,
    _std_weight_position, _std_weight_velocity.
  index_cases i; simpl; ring.
Qed.

(** ** Initiation, prediction and projection *)

(** C7: [initiate] returns the measurement followed by four zeros, and the
    diagonal covariance of the squares of the eight standard deviations
    [2 k_pos dist, 2 k_pos dist, a, 2 k_pos h, 10 k_vel dist, 10 k_vel dist,
    0.1 a, 10 k_vel h], where [k_pos = 1/20], [k_vel = 1/160] and [dist] is
    the distance of [(x, y)] to the centre of the image; at the measurement
    [[100, 100, 0.5, 50]] in an image of 1920 by 1080 the positional
    standard deviation is [2 * (1/20) * sqrt ((960-100)^2 + (540-100)^2)]. *)
Theorem initiate_spec :
  (forall self measurement,
     let x := measurement 0%nat in
     let y := measurement 1%nat in
     let a := measurement 2%nat in
     let h := measurement 3%nat in
     let k_pos := 1 / 20 in
     let k_vel := 1 / 160 in
     let dist := sqrt ((image_width self / 2 - x) ^ 2 + (image_height self / 2 - y) ^ 2) in
     eq1 8 (fst (initiate self measurement)) (array [x; y; a; h; 0; 0; 0; 0]) /\
     eq2 8 8 (snd (initiate self measurement))
         (diag (square (array [ 2 * k_pos * dist; 2 * k_pos * dist; a; 2 * k_pos * h;
                                10 * k_vel * dist; 10 * k_vel * dist; 1 / 10 * a;
                                10 * k_vel * h ])))) /\
  (let self := set_image_size 1920 1080 __init__ in
   let measurement := array [100; 100; 1 / 2; 50] in
   let std_xy := 2 * (1 / 20) * sqrt ((960 - 100) ^ 2 + (540 - 100) ^ 2) in
   nth 0 (initiate_std self measurement) 0 = std_xy /\
   nth 1 (initiate_std self measurement) 0 = std_xy /\
   snd (initiate self measurement) 0%nat 0%nat = std_xy ^ 2 /\
   snd (initiate self measurement) 1%nat 1%nat = std_xy ^ 2).
Proof.
  split.
  - intros self measurement x y a h k_pos k_vel dist. split.
    + intros i Hi. unfold initiate, r_, ndim, zeros1, array. cbn [fst].
      index_cases i; reflexivity.
    + intros i j Hi Hj. unfold initiate. cbn [snd]. unfold diag.
      destruct (Nat.eqb i j); [|reflexivity].
      unfold square, array, initiate_std, distance_to_image_center,
        _std_weight_position, _std_weight_velocity.
      fold x y a h. fold dist. subst k_pos k_vel.
      index_cases i; simpl; ring.
  - cbv zeta.
    assert (E : distance_to_image_center (set_image_size 1920 1080 __init__)
                  (array [100; 100; 1 / 2; 50])
                = sqrt ((960 - 100) ^ 2 + (540 - 100) ^ 2)).
    { unfold distance_to_image_center, array. simpl. f_equal. field. }
    unfold initiate, initiate_std. cbn [snd nth]. rewrite E.
    unfold diag, square, array, _std_weight_position. simpl.
    repeat split; ring.
Qed.

(** C8: [predict] returns [(F m, F P F^T + Q)] for the process noise [Q] of
    the instance at the call; [F] has ones on the diagonal and at
    [(i, i + 4)], so [F m] adds to each position component its velocity
    (times [dt = 1]) and keeps the velocity components; the instance is
    left as it was. *)
Theorem predict_spec self mean covariance :
  let F := _motion_mat in
  eq1 8 (fst (fst (predict self mean covariance))) (dot_mv 8 F mean) /\
  eq2 8 8 (snd (fst (predict self mean covariance)))
          (add2 (dot 8 F (dot 8 covariance (T F))) (_process_noise self)) /\
  eq2 8 8 F (fun i j => if Nat.eqb i j || Nat.eqb j (i + 4) then 1 else 0) /\
  (forall i, (i < 4)%nat -> dot_mv 8 F mean i = mean i + 1 * mean (i + 4)%nat) /\
  (forall i, (4 <= i < 8)%nat -> dot_mv 8 F mean i = mean i) /\
  snd (predict self mean covariance) = self.
Proof.
  cbv zeta.
  split; [intros i Hi; reflexivity|].
  split.
  { intros i j Hi Hj. unfold predict. cbn [fst snd]. unfold add2.
    rewrite multi_dot_eq. reflexivity. }
  split; [apply motion_mat_entries|].
  split; [apply motion_mat_dot_mv|].
  split; [apply motion_mat_dot_mv|reflexivity].
Qed.

(** C3: [project] returns [H m] and [H P H^T + R_new] and assigns the
    measurement noise [R_new = 0.9 (R_old + diag(s^2)) + 0.1 (r (outer) r +
    H P H^T)], where [s = (1 - c) [k_pos m3, k_pos m3, 0.1, k_pos m3]] and [r]
    is the stored residual; [H m] is the measured part of [m] and [H P H^T]
    the block of [P] over it; nothing else of the instance changes; the
    stored residual is zero while no update has run, and after a
    successful update it is what that update stored. *)
Theorem project_spec self mean covariance confidence :
  let H := _update_mat in
  let R_new := spec_R_new (_measurement_noise self) (_residual self)
                          mean covariance confidence in
  let pr := project self mean covariance confidence in
  eq1 4 (fst (fst pr)) (dot_mv 8 H mean) /\
  eq1 4 (dot_mv 8 H mean) mean /\
  eq2 4 4 (snd (fst pr)) (add2 (dot 8 H (dot 8 covariance (T H))) R_new) /\
  eq2 4 4 (dot 8 H (dot 8 covariance (T H))) covariance /\
  eq2 4 4 (_measurement_noise (snd pr)) R_new /\
  _process_noise (snd pr) = _process_noise self /\
  _residual (snd pr) = _residual self /\
  image_width (snd pr) = image_width self /\
  image_height (snd pr) = image_height self /\
  (before_first_update self -> _residual self = zeros1) /\
  (forall self0 mean0 covariance0 measurement0 confidence0 mean1 covariance1,
     update self0 mean0 covariance0 measurement0 confidence0
       = (Ok (mean1, covariance1), self) ->
     _residual self = sub1 measurement0 (dot_mv 8 H mean1)).
Proof.
  cbv zeta.
  split; [intros i Hi; reflexivity|].
  split; [intros i Hi; apply update_mat_dot_mv; lia|].
  split; [apply project_cov|].
  split; [intros i j Hi Hj; apply update_mat_block; lia|].
  split; [apply project_measurement_noise|].
  do 4 (split; [reflexivity|]).
  split.
  - intros Hb. apply (before_first_update_noise self Hb).
  - intros self0 mean0 covariance0 measurement0 confidence0 mean1 covariance1 Hu.
    apply (update_stored_residual _ _ _ _ _ _ _ _ Hu).
Qed.

(** C10: a new instance has zero process noise, zero measurement noise,
    zero residual and a zero image size; so every [predict] before the
    first update returns the covariance [F P F^T], and while the image
    size is zero the distance to the image centre is the distance to the
    origin; no method assigns the image size. *)
Theorem new_instance_spec :
  eq2 8 8 (_process_noise __init__) zeros2 /\
  eq2 4 4 (_measurement_noise __init__) zeros2 /\
  eq1 4 (_residual __init__) zeros1 /\
  image_width __init__ = 0 /\ image_height __init__ = 0 /\
  (forall self mean covariance,
     before_first_update self ->
     eq2 8 8 (snd (fst (predict self mean covariance)))
             (dot 8 _motion_mat (dot 8 covariance (T _motion_mat)))) /\
  (forall self bbox,
     image_width self = 0 -> image_height self = 0 ->
     distance_to_image_center self bbox = sqrt (bbox 0%nat ^ 2 + bbox 1%nat ^ 2)) /\
  (forall self mean covariance measurement confidence measurements only_position self',
     In self' [ snd (predict self mean covariance);
                snd (project self mean covariance confidence);
                snd (update self mean covariance measurement confidence);
                snd (gating_distance self mean covariance measurements only_position) ] ->
     image_width self' = image_width self /\ image_height self' = image_height self).
Proof.
  do 3 (split; [intros i; intros; reflexivity|]).
  do 2 (split; [reflexivity|]).
  split; [|split].
  - intros self mean covariance Hb i j Hi Hj.
    destruct (before_first_update_noise self Hb) as [HQ _].
    unfold predict. cbn [fst snd]. unfold add2. rewrite multi_dot_eq, HQ.
    unfold zeros2. ring.
  - intros self bbox Hw Hh. unfold distance_to_image_center. rewrite Hw, Hh.
    f_equal. field.
  - intros self mean covariance measurement confidence measurements only_position self' Hin.
    cbn [In] in Hin. destruct Hin as [<-|[<-|[<-|[<-|[]]]]].
    + split; reflexivity.
    + split; reflexivity.
    + apply update_image_size.
    + rewrite gating_distance_state. split; reflexivity.
Qed.

(** C9: [gating_distance] leaves the instance as [project] with confidence 0
    leaves it: the measurement noise becomes the next term of the
    recursion, process noise and residual are kept; [N] calls on the same
    state apply the recursion [N] times; and the measurement noise of a new
    instance is changed by one call. *)
Theorem gating_distance_perturbs_measurement_noise :
  (forall self mean covariance measurements only_position,
     let g := gating_distance self mean covariance measurements only_position in
     snd g = snd (project self mean covariance 0) /\
     eq2 4 4 (_measurement_noise (snd g))
         (spec_R_new (_measurement_noise self) (_residual self) mean covariance 0) /\
     _process_noise (snd g) = _process_noise self /\
     _residual (snd g) = _residual self) /\
  (forall self mean covariance measurements only_position N,
     let call := fun s => snd (gating_distance s mean covariance measurements only_position) in
     eq2 4 4 (_measurement_noise (Nat.iter N call self))
         (Nat.iter N (fun Rm => spec_R_new Rm (_residual self) mean covariance 0)
                   (_measurement_noise self)) /\
     _process_noise (Nat.iter N call self) = _process_noise self /\
     _residual (Nat.iter N call self) = _residual self) /\
  (exists mean covariance measurements only_position,
     _measurement_noise
       (snd (gating_distance __init__ mean covariance measurements only_position)) 2%nat 2%nat
     <> _measurement_noise __init__ 2%nat 2%nat).
Proof.
  split; [|split].
  - intros self mean covariance measurements only_position g. subst g.
    rewrite gating_distance_state.
    split; [reflexivity|]. split; [apply project_measurement_noise|].
    split; reflexivity.
  - intros self mean covariance measurements only_position N call.
    induction N as [|N [IHR [IHQ IHr]]].
    { split; [intros i j _ _; reflexivity|split; reflexivity]. }
    rewrite !Nat.iter_succ. set (s' := Nat.iter N call self) in *. unfold call at 1 2 3.
    rewrite gating_distance_state.
    destruct (project_frame s' mean covariance 0) as [EQ [Er _]].
    rewrite EQ, Er, IHQ, IHr. split; [|split; reflexivity].
    intros i j Hi Hj. rewrite project_measurement_noise by assumption.
    rewrite IHr. apply spec_R_new_ext; assumption.
  - exists zeros1, zeros2, [], false. rewrite gating_distance_state.
    rewrite project_measurement_noise by lia.
    unfold spec_R_new, add2, scale2. rewrite update_mat_block by lia.
    cbv [__init__ _measurement_noise _residual zeros1 zeros2 diag square
         spec_project_std scale1 array outer nth Nat.eqb].
    simpl. lra.
Qed.

(** ** The invariant of the covariances *)

Lemma forgetting_factor_bounds : 0 <= _forgetting_factor /\ 0 <= 1 - _forgetting_factor.
Proof. unfold _forgetting_factor. lra. Qed.

Lemma project_noise_psd self mean covariance confidence :
  pos_semi_def 8 covariance -> noise_psd self ->
  noise_psd (snd (project self mean covariance confidence)).
Proof.
  intros HP [HQ HR]. destruct forgetting_factor_bounds as [Hf Hf'].
  split; [exact HQ|].
  unfold project. cbn [snd _measurement_noise set_measurement_noise].
  auto 6 with psd.
Qed.

Lemma tracking_invariant self mean covariance :
  tracking self mean covariance -> pos_semi_def 8 covariance /\ noise_psd self.
Proof.
  induction 1 as [self z Hn
                 |self m P _ [HP Hn]
                 |self m P z c m' P' self' _ [HP Hn] Hu
                 |self m P z c self' _ [HP Hn] Hu
                 |self m P c _ [HP Hn]
                 |self m P ms op _ [HP Hn]
                 |w h self m P _ [HP Hn]].
  - split; [apply psd_diag_square|exact Hn].
  - split; [|exact Hn]. unfold predict. cbn [fst snd].
    destruct Hn as [HQ _]. auto with psd.
  - destruct (linalg.cholesky 4 (snd (fst (project self m P c)))) as [L|] eqn:E.
    + rewrite (update_ok self m P z c L E) in Hu. cbv zeta in Hu.
      injection Hu as _ EP Es. subst P' self'.
      destruct (project_noise_psd self m P c HP Hn) as [HQ1 HR1].
      destruct forgetting_factor_bounds as [Hf Hf'].
      split; [|split].
      * auto with psd.
      * cbn [_process_noise set_residual set_process_noise]. auto 6 with psd.
      * exact HR1.
    + rewrite (update_error self m P z c E) in Hu. discriminate.
  - split; [exact HP|].
    destruct (linalg.cholesky 4 (snd (fst (project self m P c)))) as [L|] eqn:E.
    + rewrite (update_ok self m P z c L E) in Hu. discriminate.
    + rewrite (update_error self m P z c E) in Hu. injection Hu as <-.
      apply project_noise_psd; assumption.
  - split; [exact HP|]. apply project_noise_psd; assumption.
  - split; [exact HP|]. rewrite gating_distance_state.
    apply project_noise_psd; assumption.
  - split; [exact HP|exact Hn].
Qed.

(** ** Positive definite projections *)

Lemma sum_n_pos n f :
  (forall i, (i < n)%nat -> 0 <= f i) ->
  (exists k, (k < n)%nat /\ 0 < f k) -> 0 < sum_n n f.
Proof.
  intros Hf [k [Hk Hp]].
  pose proof (sum_n_nonneg n f Hf) as H0.
  destruct (Req_dec (sum_n n f) 0) as [E|E]; [|lra].
  pose proof (sum_n_nonneg_zero n f Hf E k Hk). lra.
Qed.

Lemma pos_def_ext n A B : eq2 n n A B -> pos_def n A -> pos_def n B.
Proof.
  intros E [Hs Hq]. split.
  - intros i j Hi Hj. rewrite <- (E i j), <- (E j i) by assumption. apply Hs; assumption.
  - intros x Hx. rewrite <- (quad_ext n A B x x E) by (intros i _; reflexivity).
    apply Hq, Hx.
Qed.

Lemma pos_def_psd n A : pos_def n A -> pos_semi_def n A.
Proof.
  intros [Hs Hq]. split; [assumption|]. intros x.
  destruct (zero_or_nonzero n x) as [Hz|Hnz].
  - rewrite (quad_zero_vector n A x Hz). lra.
  - apply Rlt_le, Hq, Hnz.
Qed.

Lemma pos_def_add_psd n A B :
  pos_def n A -> pos_semi_def n B -> pos_def n (add2 A B).
Proof.
  intros [HsA HqA] [HsB HqB]. split.
  - intros i j Hi Hj. unfold add2. rewrite (HsA i j), (HsB i j) by assumption. reflexivity.
  - intros x Hx. rewrite quad_add. specialize (HqA x Hx). specialize (HqB x). lra.
Qed.

Lemma pos_def_diagonal n A :
  (forall i j, (i < n)%nat -> (j < n)%nat -> i <> j -> A i j = 0) ->
  (forall i, (i < n)%nat -> 0 < A i i) ->
  pos_def n A.
Proof.
  intros Hoff Hdiag. split.
  - intros i j Hi Hj. destruct (Nat.eq_dec i j) as [->|Hne]; [reflexivity|].
    rewrite (Hoff i j), (Hoff j i) by auto. reflexivity.
  - intros x [k [Hk Hx]].
    rewrite (quad_ext n A (diag (fun i => A i i)) x x).
    + rewrite quad_diag. apply sum_n_pos.
      * intros i Hi. apply Rmult_le_pos; [apply Rlt_le, Hdiag, Hi|apply pow2_ge_0].
      * exists k. split; [assumption|]. apply Rmult_lt_0_compat; [apply Hdiag, Hk|].
        pose proof (pow2_ge_0 (x k)). pose proof (pow_nonzero (x k) 2 Hx). lra.
    + intros i j Hi Hj. unfold diag. destruct (Nat.eqb i j) eqn:E.
      * apply Nat.eqb_eq in E. subst. reflexivity.
      * apply Nat.eqb_neq in E. apply Hoff; assumption.
    + intros i _. reflexivity.
Qed.

Lemma pos_def_eye n : pos_def n eye.
Proof.
  apply pos_def_diagonal.
  - intros i j _ _ Hne. unfold eye. apply Nat.eqb_neq in Hne. rewrite Hne. reflexivity.
  - intros i _. unfold eye. rewrite Nat.eqb_refl. lra.
Qed.

(** The projection of a covariance that is positive definite on the
    measured components is positive definite: there the factorization
    succeeds. *)
Lemma project_cov_pos_def self mean covariance confidence :
  pos_semi_def 8 covariance -> pos_def 4 covariance -> noise_psd self ->
  pos_def 4 (snd (fst (project self mean covariance confidence))).
Proof.
  intros HP HP4 Hn.
  destruct (project_noise_psd self mean covariance confidence HP Hn) as [_ HR].
  unfold project in *. cbn [fst snd] in *.
  apply pos_def_add_psd; [|exact HR].
  apply (pos_def_ext 4 covariance); [|exact HP4].
  intros i j Hi Hj. rewrite multi_dot_eq. symmetry. apply update_mat_block; lia.
Qed.

Lemma noise_psd_init : noise_psd __init__.
Proof. split; apply psd_zeros. Qed.

Lemma project_cov_pos_def_init mean confidence :
  pos_def 4 (snd (fst (project __init__ mean eye confidence))).
Proof.
  apply project_cov_pos_def;
    [apply pos_def_psd, pos_def_eye|apply pos_def_eye|apply noise_psd_init].
Qed.

(** ** The worked example *)

Lemma cho_factor_ok n a L :
  linalg.cho_factor n a = Ok (L, true) -> linalg.cholesky n a = Ok L.
Proof.
  unfold linalg.cho_factor. destruct (linalg.cholesky n a) as [c|]; [|discriminate].
  intros E. injection E as ->. reflexivity.
Qed.

Lemma symmetric_eye n : symmetric n eye.
Proof. intros i j _ _. apply eye_sym. Qed.

(** The projected covariance of the example is [diag (2, 2, 1.109, 2)]. *)
Lemma example_projected_cov :
  eq2 4 4 (snd (fst (project __init__ example_mean eye 0)))
      (diag (array [2; 2; 1109 / 1000; 2])).
Proof.
  intros i j Hi Hj. rewrite project_cov by assumption.
  unfold add2, spec_R_new, add2, scale2. rewrite !update_mat_block by lia.
  index_cases i; index_cases j;
    cbv [__init__ _measurement_noise _residual zeros1 zeros2 diag square eye example_mean
         spec_project_std scale1 array outer nth Nat.eqb];
    simpl; lra.
Qed.

Lemma example_inverse :
  inverse 4 (snd (fst (project __init__ example_mean eye 0)))
          (diag (array [1 / 2; 1 / 2; 1000 / 1109; 1 / 2])).
Proof.
  apply right_inverse_inverse.
  - apply project_cov_symmetric; [apply symmetric_eye|apply symmetric_zeros].
  - intros i j Hi Hj.
    rewrite (dot_ext 4 _ (diag (array [2; 2; 1109 / 1000; 2])) _ _ i j
               (fun l Hl => example_projected_cov i l Hi Hl) (fun l _ => eq_refl)).
    index_cases i; index_cases j;
      cbv [dot sum_n diag array nth eye Nat.eqb]; lra.
Qed.

(** The gain of the example: the inverse over the measured components,
    zero over the velocities. *)
Lemma example_gain L :
  linalg.cholesky 4 (snd (fst (project __init__ example_mean eye 0))) = Ok L ->
  eq2 8 4 (kalman_gain (L, true) eye)
      (fun i j => if Nat.ltb i 4
                  then diag (array [1 / 2; 1 / 2; 1000 / 1109; 1 / 2]) i j
                  else 0).
Proof.
  intros E i j Hi Hj.
  rewrite (kalman_gain_inverse _ _ L eye
             (project_cov_symmetric __init__ example_mean eye 0
                (symmetric_eye 8) (symmetric_zeros 4))
             E example_inverse i j Hi Hj).
  index_cases i; index_cases j;
    cbv [dot sum_n T _update_mat diag array nth eye Nat.eqb Nat.ltb Nat.leb]; lra.
Qed.

(** The covariance that [initiate] returns for the box
    [(100, 100, 0.5, 50)] is positive definite on the measured components. *)
Lemma example_initiate_pos_def :
  pos_def 4 (snd (initiate __init__ (array [100; 100; 1 / 2; 50]))).
Proof.
  assert (Hd : 0 < distance_to_image_center __init__ (array [100; 100; 1 / 2; 50])).
  { unfold distance_to_image_center. apply sqrt_lt_R0.
    cbv [__init__ image_width image_height array nth]. simpl. lra. }
  set (z0 := array [100; 100; 1 / 2; 50]) in *.
  apply pos_def_diagonal.
  - intros i j _ _ Hne. unfold initiate, diag. cbn [snd].
    apply Nat.eqb_neq in Hne. rewrite Hne. reflexivity.
  - intros i Hi. unfold initiate, diag. cbn [snd]. rewrite Nat.eqb_refl.
    unfold square. apply pow_lt.
    unfold initiate_std, _std_weight_position, array.
    index_cases i; cbn [nth]; first [lra | subst z0; cbv [array nth]; lra].
Qed.

(** ** The correction step *)

(** C1: when the projected covariance [Sigma] is positive definite,
    [update] returns [m + nu K^T] and the Joseph form
    [(I - K H) P (I - K H)^T + K R K^T] with the measurement noise [R] that
    the projection has just assigned; the gain [K], computed from the
    Cholesky factor of [Sigma] by triangular solves, satisfies
    [K Sigma = P H^T], that is [K = P H^T Sigma^-1] for the inverse of
    [Sigma], which exists; the residual stored is [z - H new_mean]. *)
Theorem update_spec self mean covariance measurement confidence :
  let H := _update_mat in
  let pr := project self mean covariance confidence in
  let Sigma := snd (fst pr) in
  let R_new := _measurement_noise (snd pr) in
  let nu := sub1 measurement (dot_mv 8 H mean) in
  pos_def 4 Sigma ->
  exists L new_mean new_covariance self',
    let K := kalman_gain (L, true) covariance in
    update self mean covariance measurement confidence
      = (Ok (new_mean, new_covariance), self') /\
    linalg.cho_factor 4 Sigma = Ok (L, true) /\
    eq2 8 4 (dot 4 K Sigma) (dot 8 covariance (T H)) /\
    (exists Sinv, inverse 4 Sigma Sinv) /\
    (forall Sinv, inverse 4 Sigma Sinv ->
       eq2 8 4 K (dot 4 (dot 8 covariance (T H)) Sinv)) /\
    eq1 8 new_mean (add1 mean (dot_vm 4 nu (T K))) /\
    eq2 8 8 new_covariance (spec_joseph K covariance R_new) /\
    eq2 4 4 (_measurement_noise self') R_new /\
    eq1 4 (_residual self') (sub1 measurement (dot_mv 8 H new_mean)).
Proof.
  intros H pr Sigma R_new nu Hpd.
  destruct (pos_def_cholesky 4 Sigma Hpd) as [L E].
  pose proof (update_ok self mean covariance measurement confidence L E) as Hu.
  cbv zeta in Hu. destruct Hpd as [Hs _].
  eexists L, _, _, _. cbv zeta.
  split; [exact Hu|].
  split; [unfold linalg.cho_factor; rewrite E; reflexivity|].
  split; [apply kalman_gain_solves; assumption|].
  split; [apply pos_def_inverse; split; [exact Hs|]; apply (cholesky_pos_def 4 Sigma L Hs E)|].
  split; [intros Sinv Hinv; apply (kalman_gain_inverse Sigma Sinv L covariance Hs E Hinv)|].
  split; [intros i Hi; reflexivity|].
  split.
  { intros i j Hi Hj. unfold spec_joseph, add2. rewrite !multi_dot_eq. reflexivity. }
  split; intros i; intros; reflexivity.
Qed.

Lemma update_spec_witness :
  exists new_mean new_covariance self',
    update __init__ example_mean eye example_measurement 0
    = (Ok (new_mean, new_covariance), self') /\
    eq1 8 new_mean (array [201 / 2; 199 / 2; 1 / 2; 41 / 2; 0; 0; 0; 0]) /\
    eq1 4 (_residual self') (array [1 / 2; - (1 / 2); 0; 1 / 2]).
Proof.
  destruct (update_spec __init__ example_mean eye example_measurement 0
              (project_cov_pos_def_init _ _))
    as [L [m' [P' [s' [E [Ef [_ [_ [_ [Hm [_ [_ Hr]]]]]]]]]]]].
  pose proof (example_gain L (cho_factor_ok _ _ _ Ef)) as HK.
  assert (Em : eq1 8 m' (array [201 / 2; 199 / 2; 1 / 2; 41 / 2; 0; 0; 0; 0])).
  { intros i Hi. rewrite (Hm i Hi). unfold add1, dot_vm, T. cbn [sum_n].
    rewrite !HK by lia. index_cases i; eval_example; lra. }
  exists m', P', s'. split; [exact E|]. split; [exact Em|].
  intros i Hi. rewrite (Hr i Hi). unfold sub1. rewrite update_mat_dot_mv by lia.
  rewrite (Em i) by lia. index_cases i; eval_example; lra.
Defined.

(** C4: a successful [update] assigns the process noise
    [0.9 (Q_old + A) + 0.1 K (nu (outer) nu) K^T], where [A] is the diagonal
    array of the squares of [k_pos d, k_pos d, a, k_pos h, k_vel d, k_vel d,
    0.1 a, k_vel h] for the distance [d] to the image centre, the aspect
    ratio [a] and the height [h] of the mean passed in; these are the
    standard deviations of [initiate] at the same box divided by
    2, 2, 1, 2, 10, 10, 1 and 10. *)
Theorem update_process_noise
        self mean covariance measurement confidence mean' covariance' self' :
  update self mean covariance measurement confidence = (Ok (mean', covariance'), self') ->
  let H := _update_mat in
  let Sigma := snd (fst (project self mean covariance confidence)) in
  let nu := sub1 measurement (dot_mv 8 H mean) in
  let dist := sqrt ((image_width self / 2 - mean 0%nat) ^ 2
                    + (image_height self / 2 - mean 1%nat) ^ 2) in
  let A := diag (square (spec_update_std dist mean)) in
  exists L,
    let K := kalman_gain (L, true) covariance in
    linalg.cho_factor 4 Sigma = Ok (L, true) /\
    eq2 8 8 (_process_noise self') (spec_Q_new (_process_noise self) A K nu) /\
    (symmetric 4 Sigma -> eq2 8 4 (dot 4 K Sigma) (dot 8 covariance (T H))) /\
    eq1 8 (array (initiate_std self mean))
          (fun i => array [2; 2; 1; 2; 10; 10; 1; 10] i * spec_update_std dist mean i).
Proof.
  intros Hu H Sigma nu dist A.
  destruct (linalg.cholesky 4 Sigma) as [L|] eqn:E.
  2:{ unfold Sigma in E.
      rewrite (update_error self mean covariance measurement confidence E) in Hu.
      discriminate. }
  unfold Sigma in E.
  rewrite (update_ok self mean covariance measurement confidence L E) in Hu.
  cbv zeta in Hu. injection Hu as _ _ Es. subst self'.
  exists L. cbv zeta.
  split; [unfold linalg.cho_factor, Sigma; rewrite E; reflexivity|].
  split.
  { intros i j Hi Hj. cbn [_process_noise set_residual set_process_noise].
    unfold spec_Q_new, add2, scale2. rewrite multi_dot_eq.
    rewrite (update_std_spec _ mean i j Hi Hj).
    cbn [snd project image_width image_height set_measurement_noise].
    fold dist. fold A. unfold _forgetting_factor. unfold innovation.
    cbn [fst]. fold H. fold nu. lra. }
  split; [intros Hs; apply kalman_gain_solves; assumption|].
  intros i Hi. unfold initiate_std, spec_update_std, array, distance_to_image_center,
    _std_weight_position, _std_weight_velocity. fold dist.
  index_cases i; simpl; field.
Qed.

Lemma update_process_noise_witness :
  exists self',
    fst (update __init__ example_mean eye example_measurement 0) <> LinAlgError /\
    snd (update __init__ example_mean eye example_measurement 0) = self' /\
    _process_noise self' 2%nat 2%nat = 9 / 40 /\
    _process_noise self' 3%nat 3%nat = 37 / 40.
Proof.
  destruct (update_succeeds __init__ example_mean eye example_measurement 0
              (project_cov_pos_def_init _ _))
    as [m' [P' [s' E]]].
  destruct (update_process_noise _ _ _ _ _ _ _ _ E) as [L [Ef [HQ _]]].
  pose proof (example_gain L (cho_factor_ok _ _ _ Ef)) as HK.
  exists s'. rewrite E. split; [discriminate|]. split; [reflexivity|].
  split.
  - rewrite (HQ 2%nat 2%nat) by lia.
    unfold spec_Q_new, add2, scale2, dot, outer, T. cbn [sum_n].
    rewrite !HK by lia. cbn [_process_noise __init__]. eval_example. lra.
  - rewrite (HQ 3%nat 3%nat) by lia.
    unfold spec_Q_new, add2, scale2, dot, outer, T. cbn [sum_n].
    rewrite !HK by lia. cbn [_process_noise __init__]. eval_example. lra.
Defined.

(** C2: along every history of a track (an [initiate] on an instance whose
    noise matrices are symmetric positive semi-definite, as those of a new
    instance are, then calls of [predict] and successful [update]s, with
    failing [update]s and calls of [project] and [gating_distance] in
    between) the covariance held is symmetric and positive
    semi-definite. *)
Theorem covariance_invariant self mean covariance :
  tracking self mean covariance -> pos_semi_def 8 covariance.
Proof. intros Ht. apply (tracking_invariant self mean covariance Ht). Qed.

Lemma covariance_invariant_witness :
  exists mean' covariance' self',
    update __init__ (fst (initiate __init__ (array [100; 100; 1 / 2; 50])))
                (snd (initiate __init__ (array [100; 100; 1 / 2; 50])))
                example_measurement (1 / 2)
    = (Ok (mean', covariance'), self') /\
    pos_semi_def 8 covariance' /\
    pos_semi_def 8 (snd (fst (predict self' mean' covariance'))).
Proof.
  pose proof (tracking_initiate __init__ (array [100; 100; 1 / 2; 50]) noise_psd_init) as H0.
  destruct (update_succeeds __init__ (fst (initiate __init__ (array [100; 100; 1 / 2; 50])))
              (snd (initiate __init__ (array [100; 100; 1 / 2; 50])))
              example_measurement (1 / 2))
    as [m' [P' [s' E]]].
  { apply project_cov_pos_def;
      [apply psd_diag_square|apply example_initiate_pos_def|apply noise_psd_init]. }
  pose proof (tracking_update _ _ _ _ _ _ _ _ H0 E) as H1.
  exists m', P', s'. split; [exact E|]. split.
  - exact (covariance_invariant _ _ _ H1).
  - exact (covariance_invariant _ _ _ (tracking_predict _ _ _ H1)).
Defined.

(** ** Leading blocks *)

Lemma sum_n_S_tail n f : sum_n (S n) f = sum_n n f + f n.
Proof.
  revert f; induction n as [|n IH]; intros f; [simpl; ring|].
  change (sum_n (S (S n)) f) with (f O + sum_n (S n) (fun i => f (S i))).
  rewrite (IH (fun i => f (S i))). simpl. ring.
Qed.

Lemma pos_def_leading n A : pos_def (S n) A -> pos_def n A.
Proof.
  intros [Hs Hq]. split; [intros i j Hi Hj; apply Hs; lia|].
  intros x [k [Hk Hx]].
  set (x' := fun i => if Nat.ltb i n then x i else 0).
  assert (Hin : forall i, (i < n)%nat -> x' i = x i).
  { intros i Hi. unfold x'. apply Nat.ltb_lt in Hi. rewrite Hi. reflexivity. }
  assert (Hout : x' n = 0) by (unfold x'; rewrite Nat.ltb_irrefl; reflexivity).
  assert (E : quad (S n) A x' = quad n A x).
  { unfold quad. rewrite sum_n_S_tail, Hout, Rmult_0_l, Rplus_0_r.
    apply sum_n_ext. intros i Hi. rewrite (Hin i Hi). f_equal.
    unfold dot_mv. rewrite sum_n_S_tail, Hout, Rmult_0_r, Rplus_0_r.
    apply sum_n_ext. intros l Hl. rewrite (Hin l Hl). reflexivity. }
  rewrite <- E. apply Hq. exists k. split; [lia|]. rewrite (Hin k Hk). exact Hx.
Qed.

Lemma pos_def_gating_block (only_position : bool) A :
  pos_def 4 A -> pos_def (if only_position then 2%nat else 4%nat) A.
Proof.
  intros H. destruct only_position; [|exact H].
  apply pos_def_leading, pos_def_leading, H.
Qed.

(** ** What [gating_distance] computes *)

Lemma gating_distance_ok self mean covariance measurements (only_position : bool) L :
  linalg.cholesky (if only_position then 2%nat else 4%nat)
                  (snd (fst (project self mean covariance 0))) = Ok L ->
  gating_distance self mean covariance measurements only_position =
  (Ok (map (squared_maha (if only_position then 2%nat else 4%nat) L
                         (fst (fst (project self mean covariance 0))))
           measurements),
   snd (project self mean covariance 0)).
Proof.
  intros E. unfold gating_distance. rewrite E. rewrite !map_map. reflexivity.
Qed.

Lemma gating_distance_error self mean covariance measurements (only_position : bool) :
  linalg.cholesky (if only_position then 2%nat else 4%nat)
                  (snd (fst (project self mean covariance 0))) = LinAlgError ->
  gating_distance self mean covariance measurements only_position =
  (LinAlgError, snd (project self mean covariance 0)).
Proof.
  intros E. unfold gating_distance. rewrite E. reflexivity.
Qed.

Lemma nth_map_default (f : array1 -> R) l i :
  (i < length l)%nat -> nth i (map f l) 0 = f (nth i l zeros1).
Proof.
  intros Hi. rewrite (nth_indep (map f l) 0 (f zeros1)) by (rewrite length_map; exact Hi).
  apply map_nth.
Qed.

Lemma squared_maha_nonneg n L mu m : 0 <= squared_maha n L mu m.
Proof.
  unfold squared_maha. apply sum_n_nonneg. intros k _.
  pose proof (pow2_ge_0 (linalg.solve_triangular n L (sub1 m mu) k)). lra.
Qed.

Lemma squared_maha_ext n L mu m m' :
  eq1 n m m' -> squared_maha n L mu m = squared_maha n L mu m'.
Proof.
  intros E. unfold squared_maha, linalg.solve_triangular.
  assert (Hz : eq1 n (linalg.solve_lower n L (sub1 m mu)) (linalg.solve_lower n L (sub1 m' mu))).
  { apply solve_lower_ext; [intros i j _ _; reflexivity|].
    intros i Hi. unfold sub1. rewrite (E i Hi). reflexivity. }
  apply sum_n_ext. intros k Hk. rewrite (Hz k Hk). reflexivity.
Qed.

(** Along a ray from the projected mean the distance grows with the square
    of the offset. *)
Lemma squared_maha_ray n L mu m t u :
  lower_triangular n L -> nonzero_diagonal n L ->
  eq1 n m (add1 mu (scale1 t u)) ->
  squared_maha n L mu m =
  t ^ 2 * sum_n n (fun k => linalg.solve_lower n L u k * linalg.solve_lower n L u k).
Proof.
  intros Hl Hd E. unfold squared_maha, linalg.solve_triangular.
  assert (Hz : eq1 n (linalg.solve_lower n L (sub1 m mu))
                     (fun i => t * linalg.solve_lower n L u i)).
  { intros i Hi. rewrite <- (solve_lower_scale n L t u Hl Hd i Hi).
    apply solve_lower_ext; [intros k l _ _; reflexivity| |exact Hi].
    intros k Hk. unfold sub1. rewrite (E k Hk). unfold add1, scale1. ring. }
  rewrite <- sum_n_scal_l. apply sum_n_ext. intros k Hk. rewrite (Hz k Hk). ring.
Qed.

(** ** Gating *)

(** C5: when the projected covariance [Sigma] is positive definite,
    [gating_distance] returns one distance per measurement; the distance of
    the measurement [m] is [d^T Sigma^-1 d] for [d = m - mu], the projected
    mean [mu] and the inverse of [Sigma] (of its leading 2 by 2 block with
    [only_position]), which exists; it is non-negative; it is 0 when [m]
    is [mu]; of two measurements that differ from [mu] in position only,
    by [t1 (ux, uy)] and [t2 (ux, uy)] with [0 <= t1 <= t2], the second is
    at least as far; and with [only_position] two measurements with the
    same [x] and [y] are at the same distance. *)
Theorem gating_distance_spec self mean covariance measurements (only_position : bool) :
  let pr := project self mean covariance 0 in
  let mu := fst (fst pr) in
  let Sigma := snd (fst pr) in
  let n := if only_position then 2%nat else 4%nat in
  pos_def 4 Sigma ->
  exists distances,
    fst (gating_distance self mean covariance measurements only_position) = Ok distances /\
    length distances = length measurements /\
    (exists Sinv, inverse n Sigma Sinv) /\
    (forall i, (i < length measurements)%nat ->
       let m := nth i measurements zeros1 in
       let d := sub1 m mu in
       0 <= nth i distances 0 /\
       (forall Sinv, inverse n Sigma Sinv ->
          nth i distances 0 = sum_n n (fun k => d k * dot_mv n Sinv d k)) /\
       (eq1 n m mu -> nth i distances 0 = 0)) /\
    (forall i j ux uy t1 t2,
       (i < length measurements)%nat -> (j < length measurements)%nat ->
       0 <= t1 <= t2 ->
       eq1 4 (nth i measurements zeros1) (add1 mu (scale1 t1 (array [ux; uy; 0; 0]))) ->
       eq1 4 (nth j measurements zeros1) (add1 mu (scale1 t2 (array [ux; uy; 0; 0]))) ->
       nth i distances 0 <= nth j distances 0) /\
    (only_position = true ->
     forall i j,
       (i < length measurements)%nat -> (j < length measurements)%nat ->
       nth i measurements zeros1 0%nat = nth j measurements zeros1 0%nat ->
       nth i measurements zeros1 1%nat = nth j measurements zeros1 1%nat ->
       nth i distances 0 = nth j distances 0).
Proof.
  intros pr mu Sigma n Hpd4.
  assert (Hn4 : (n <= 4)%nat) by (unfold n; destruct only_position; lia).
  pose proof (pos_def_gating_block only_position Sigma Hpd4) as Hpd. fold n in Hpd.
  destruct (pos_def_cholesky n Sigma Hpd) as [L E].
  destruct (cholesky_triangular n Sigma L E) as [Hl [_ [Hd _]]].
  pose proof (gating_distance_ok self mean covariance measurements only_position L E) as Hg.
  fold n mu in Hg.
  exists (map (squared_maha n L mu) measurements).
  split; [rewrite Hg; reflexivity|].
  split; [apply length_map|].
  split; [apply pos_def_inverse, Hpd|].
  split; [|split].
  - intros i Hi m d. rewrite nth_map_default by assumption. fold m.
    split; [apply squared_maha_nonneg|]. split.
    + intros Sinv Hinv. unfold squared_maha, linalg.solve_triangular. fold d.
      apply (solve_lower_mahalanobis n Sigma L Sinv d (proj1 Hpd) E Hinv).
    + intros Em.
      rewrite (squared_maha_ray n L mu m 0 zeros1 Hl Hd); [ring|].
      intros k Hk. rewrite (Em k Hk). unfold add1, scale1. ring.
  - intros i j ux uy t1 t2 Hi Hj Ht Ei Ej.
    rewrite !nth_map_default by assumption.
    rewrite (squared_maha_ray n L mu _ t1 (array [ux; uy; 0; 0]) Hl Hd)
      by (intros k Hk; apply Ei; lia).
    rewrite (squared_maha_ray n L mu _ t2 (array [ux; uy; 0; 0]) Hl Hd)
      by (intros k Hk; apply Ej; lia).
    apply Rmult_le_compat_r.
    + apply sum_n_nonneg. intros k _.
      pose proof (pow2_ge_0 (linalg.solve_lower n L (array [ux; uy; 0; 0]) k)). lra.
    + apply pow_incr. lra.
  - intros Hop i j Hi Hj E0 E1. rewrite !nth_map_default by assumption.
    apply squared_maha_ext. intros k Hk. unfold n in Hk. rewrite Hop in Hk.
    destruct k as [|[|k]]; [exact E0|exact E1|lia].
Qed.

Lemma gating_distance_spec_witness :
  fst (gating_distance __init__ example_mean eye
         [example_measurement; array [100; 100; 1 / 2; 20]] false)
  = Ok [3 / 2; 0].
Proof.
  destruct (gating_distance_spec __init__ example_mean eye
              [example_measurement; array [100; 100; 1 / 2; 20]] false
              (project_cov_pos_def_init _ _))
    as [ds [E [Hlen [_ [Hall _]]]]].
  rewrite E. f_equal.
  destruct ds as [|d0 [|d1 [|d2 ds]]]; try discriminate.
  destruct (Hall 0%nat) as [_ [H0 _]]; [cbn; lia|].
  destruct (Hall 1%nat) as [_ [_ H1]]; [cbn; lia|].
  cbn [nth] in H0, H1. f_equal; [|f_equal].
  - rewrite (H0 _ example_inverse). cbn [fst project]. eval_example. lra.
  - apply H1. intros k Hk. cbn [fst project]. index_cases k; eval_example; lra.
Defined.

(** The distances through any inverse of the projected covariance. *)
Lemma gating_distance_inverse self mean covariance measurements (only_position : bool) Sinv :
  pos_def 4 (snd (fst (project self mean covariance 0))) ->
  inverse (if only_position then 2%nat else 4%nat)
          (snd (fst (project self mean covariance 0))) Sinv ->
  fst (gating_distance self mean covariance measurements only_position)
  = Ok (map (fun m =>
               sum_n (if only_position then 2%nat else 4%nat)
                     (fun k => sub1 m (fst (fst (project self mean covariance 0))) k
                               * dot_mv (if only_position then 2%nat else 4%nat) Sinv
                                        (sub1 m (fst (fst (project self mean covariance 0)))) k))
            measurements).
Proof.
  intros Hpd4 Hinv.
  pose proof (pos_def_gating_block only_position _ Hpd4) as Hpd.
  destruct (pos_def_cholesky _ _ Hpd) as [L E].
  rewrite (gating_distance_ok self mean covariance measurements only_position L E).
  cbn [fst]. f_equal. apply map_ext. intros m.
  unfold squared_maha, linalg.solve_triangular.
  apply (solve_lower_mahalanobis _ _ L Sinv _ (proj1 Hpd) E Hinv).
Qed.

Lemma tall_projected_cov :
  eq2 4 4 (snd (fst (project __init__ example_mean tall_covariance 0)))
      (diag (array [2; 1109 / 10; 1109 / 1000; 2])).
Proof.
  intros i j Hi Hj. rewrite project_cov by assumption.
  unfold add2, spec_R_new, add2, scale2. rewrite !update_mat_block by lia.
  index_cases i; index_cases j;
    cbv [__init__ _measurement_noise _residual zeros1 zeros2 diag square eye example_mean
         tall_covariance setitem andb spec_project_std scale1 array outer nth Nat.eqb];
    simpl; lra.
Qed.

Lemma tall_pos_def :
  pos_def 4 (snd (fst (project __init__ example_mean tall_covariance 0))).
Proof.
  apply (pos_def_ext 4 (diag (array [2; 1109 / 10; 1109 / 1000; 2]))).
  - intros i j Hi Hj. symmetry. apply tall_projected_cov; assumption.
  - apply pos_def_diagonal.
    + intros i j Hi Hj Hne. index_cases i; index_cases j;
        try (exfalso; apply Hne; reflexivity); reflexivity.
    + intros i Hi. index_cases i; cbv [diag array nth Nat.eqb]; lra.
Qed.

Lemma tall_inverse (only_position : bool) :
  inverse (if only_position then 2%nat else 4%nat)
          (snd (fst (project __init__ example_mean tall_covariance 0)))
          (diag (array [1 / 2; 10 / 1109; 1000 / 1109; 1 / 2])).
Proof.
  assert (Hn : ((if only_position then 2 else 4) <= 4)%nat) by (destruct only_position; lia).
  apply right_inverse_inverse.
  - intros i j Hi Hj. apply (proj1 tall_pos_def); lia.
  - intros i j Hi Hj.
    rewrite (dot_ext _ _ (diag (array [2; 1109 / 10; 1109 / 1000; 2])) _ _ i j
               (fun l Hl => tall_projected_cov i l (Nat.lt_le_trans _ _ _ Hi Hn)
                                               (Nat.lt_le_trans _ _ _ Hl Hn))
               (fun l _ => eq_refl)).
    destruct only_position; index_cases i; index_cases j;
      cbv [dot sum_n diag array nth eye Nat.eqb]; lra.
Qed.

(** C5, as the claim words it: a state and two measurements that match
    the projected mean [(100, 100, 0.5, 20)] in aspect ratio and height,
    the first at Euclidean offset 1 in position (along [x]), the second at
    Euclidean offset 2 (along [y]); the second, farther one gets the
    smaller distance, 40/1109 against 1/2, with and without
    [only_position]. *)
Lemma gating_distance_offset_counterexample :
  pos_def 4 (snd (fst (project __init__ example_mean tall_covariance 0))) /\
  eq1 4 (fst (fst (project __init__ example_mean tall_covariance 0)))
        (array [100; 100; 1 / 2; 20]) /\
  (fst (gating_distance __init__ example_mean tall_covariance
          [array [101; 100; 1 / 2; 20]; array [100; 102; 1 / 2; 20]] false)
   = Ok [1 / 2; 40 / 1109]) /\
  (fst (gating_distance __init__ example_mean tall_covariance
          [array [101; 100; 1 / 2; 20]; array [100; 102; 1 / 2; 20]] true)
   = Ok [1 / 2; 40 / 1109]) /\
  40 / 1109 < 1 / 2.
Proof.
  split; [exact tall_pos_def|].
  split; [intros i Hi; cbn [fst project]; index_cases i; eval_example; lra|].
  split; [|split; [|lra]].
  - rewrite (gating_distance_inverse _ _ _ _ false _ tall_pos_def (tall_inverse false)).
    cbn [map fst project]. f_equal. f_equal; [|f_equal]; eval_example; lra.
  - rewrite (gating_distance_inverse _ _ _ _ true _ tall_pos_def (tall_inverse true)).
    cbn [map fst project]. f_equal. f_equal; [|f_equal]; eval_example; lra.
Qed.

(** ** Failure of the factorization *)

(** The covariance and the measurement noise of a track are symmetric. *)
Lemma tracking_symmetric self mean covariance :
  tracking self mean covariance ->
  symmetric 8 covariance /\ symmetric 4 (_measurement_noise self).
Proof.
  intros Ht. destruct (tracking_invariant self mean covariance Ht) as [[HP _] [_ [HR _]]].
  split; assumption.
Qed.



Lemma skew_projected_cov :
  eq2 4 4 (snd (fst (project __init__ example_mean skew_covariance 0)))
      (setitem (diag (array [2; 2; 1109 / 1000; 2])) 0 1 (44 / 10)).
Proof.
  intros i j Hi Hj. rewrite project_cov by assumption.
  unfold add2, spec_R_new, add2, scale2. rewrite !update_mat_block by lia.
  index_cases i; index_cases j;
    cbv [__init__ _measurement_noise _residual zeros1 zeros2 diag square eye example_mean
         skew_covariance setitem andb spec_project_std scale1 array outer nth Nat.eqb];
    simpl; lra.
Qed.


(** * Beyond the claims *)

(** ** More on products *)

Lemma dot_sub_l k A B C i j :
  dot k (sub2 A B) C i j = dot k A C i j - dot k B C i j.
Proof.
  unfold dot, sub2. rewrite <- sum_n_minus. apply sum_n_ext. intros l _. ring.
Qed.

Lemma dot_sub_r k A B C i j :
  dot k A (sub2 B C) i j = dot k A B i j - dot k A C i j.
Proof.
  unfold dot, sub2. rewrite <- sum_n_minus. apply sum_n_ext. intros l _. ring.
Qed.

Lemma T_dot k A B i j : T (dot k A B) i j = dot k (T B) (T A) i j.
Proof. unfold T, dot. apply sum_n_ext. intros l _. ring. Qed.

Lemma quad_sub n A B x : quad n (sub2 A B) x = quad n A x - quad n B x.
Proof.
  unfold quad, dot_mv, sub2. rewrite <- sum_n_minus. apply sum_n_ext. intros i _.
  rewrite <- Rmult_minus_distr_l. f_equal. rewrite <- sum_n_minus.
  apply sum_n_ext. intros l _. ring.
Qed.

(** The quadratic form at a basis vector is the diagonal entry. *)
Lemma quad_basis n A i :
  (i < n)%nat -> quad n A (fun k => eye i k) = A i i.
Proof.
  intros Hi. unfold quad.
  rewrite (sum_n_eye_l n i (fun k => dot_mv n A (fun k' => eye i k') k) Hi).
  unfold dot_mv.
  rewrite (sum_n_ext n _ (fun l => A i l * eye l i)) by (intros l _; rewrite eye_sym; reflexivity).
  apply (sum_n_eye_r n i (fun l => A i l) Hi).
Qed.

(** ** The Joseph form and the textbook form *)

(** With a gain that solves [K Sigma = P H^T] for [Sigma = H P H^T + R], the
    Joseph form is [(I - K H) P]. *)
Lemma joseph_textbook K P Rm Sigma :
  eq2 8 4 (dot 4 K Sigma) (dot 8 P (T _update_mat)) ->
  eq2 4 4 Sigma (add2 (dot 8 _update_mat (dot 8 P (T _update_mat))) Rm) ->
  eq2 8 8 (spec_joseph K P Rm) (dot 8 (sub2 eye (dot 4 K _update_mat)) P).
Proof.
  intros HK HS i j Hi Hj.
  set (H := _update_mat) in *. set (A := sub2 eye (dot 4 K H)).
  set (PHt := dot 8 P (T H)) in *.
  assert (S1 : forall l, dot 8 P (T A) l j = P l j - dot 4 PHt (T K) l j).
  { intros l. unfold A.
    transitivity (dot 8 P (sub2 eye (T (dot 4 K H))) l j).
    { apply dot_ext; [reflexivity|]. intros m _. unfold T, sub2. rewrite eye_sym. reflexivity. }
    rewrite dot_sub_r, (dot_eye_r 8 P l j Hj). f_equal.
    rewrite (dot_ext 8 P P _ (dot 4 (T H) (T K)) l j);
      [|reflexivity|intros m _; apply T_dot].
    unfold PHt. symmetry. apply dot_assoc. }
  assert (S3 : forall q, (q < 4)%nat -> dot 8 A PHt i q = dot 4 K Rm i q).
  { intros q Hq. unfold A. rewrite dot_sub_l, (dot_eye_l 8 PHt i q Hi).
    rewrite dot_assoc. rewrite <- (HK i q Hi Hq).
    rewrite <- dot_sub_r. apply dot_ext; [reflexivity|].
    intros p Hp. unfold sub2. rewrite (HS p q Hp Hq). unfold add2. ring. }
  unfold spec_joseph. fold H. fold A. unfold add2.
  rewrite (dot_ext 8 A A _ (sub2 P (dot 4 PHt (T K))) i j);
    [|reflexivity|intros l _; apply S1].
  rewrite dot_sub_r.
  rewrite <- (dot_assoc 4 8 A PHt (T K) i j).
  rewrite (dot_ext 4 _ (dot 4 K Rm) (T K) (T K) i j);
    [|intros q Hq; apply S3, Hq|reflexivity].
  rewrite (dot_assoc 4 4 K Rm (T K) i j). ring.
Qed.

Lemma project_cov_split self mean covariance confidence :
  eq2 4 4 (snd (fst (project self mean covariance confidence)))
      (add2 (dot 8 _update_mat (dot 8 covariance (T _update_mat)))
            (_measurement_noise (snd (project self mean covariance confidence)))).
Proof.
  intros i j _ _. unfold project. cbn [fst snd _measurement_noise set_measurement_noise].
  unfold add2 at 1 4. rewrite multi_dot_eq. reflexivity.
Qed.

Lemma update_covariance_textbook_eq self mean covariance measurement confidence L :
  symmetric 4 (snd (fst (project self mean covariance confidence))) ->
  linalg.cholesky 4 (snd (fst (project self mean covariance confidence))) = Ok L ->
  eq2 8 8 (snd (match fst (update self mean covariance measurement confidence) with
                | Ok mc => mc
                | LinAlgError => (mean, covariance)
                end))
      (dot 8 (sub2 eye (dot 4 (kalman_gain (L, true) covariance) _update_mat)) covariance).
Proof.
  intros Hs E i j Hi Hj.
  rewrite (update_ok self mean covariance measurement confidence L E). cbv zeta. cbn [fst snd].
  rewrite <- (joseph_textbook (kalman_gain (L, true) covariance) covariance
                (_measurement_noise (snd (project self mean covariance confidence)))
                (snd (fst (project self mean covariance confidence)))
                (kalman_gain_solves _ L covariance Hs E)
                (project_cov_split self mean covariance confidence) i j Hi Hj).
  unfold spec_joseph, add2. rewrite !multi_dot_eq. reflexivity.
Qed.

(** [K H P = K Sigma K^T] for symmetric [P] and [Sigma]. *)
Lemma gain_congruence K P Sigma :
  symmetric 8 P -> symmetric 4 Sigma ->
  eq2 8 4 (dot 4 K Sigma) (dot 8 P (T _update_mat)) ->
  eq2 8 8 (dot 8 (dot 4 K _update_mat) P) (dot 4 K (dot 4 Sigma (T K))).
Proof.
  intros HP HS HK i j Hi Hj. rewrite dot_assoc. apply dot_ext; [reflexivity|].
  intros l Hl. unfold _update_mat. rewrite dot_eye_l by lia.
  rewrite (HP l j) by lia.
  transitivity (dot 8 P (T _update_mat) j l).
  - unfold _update_mat.
    rewrite (dot_ext 8 P P (T eye) eye j l);
      [symmetry; apply dot_eye_r; lia|reflexivity|intros m _; unfold T; apply eye_sym].
  - rewrite <- (HK j l Hj Hl). unfold dot, T. apply sum_n_ext. intros p Hp.
    rewrite (HS p l Hp Hl). ring.
Qed.

(** X1: when the projected covariance is positive definite, the covariance
    that [update] returns in the Joseph form is the textbook [(I - K H) P]:
    entry [(i, j)] is [P i j] less the sum over the four measured
    components [l] of [K i l * P l j]. *)
Theorem update_covariance_textbook self mean covariance measurement confidence :
  pos_def 4 (snd (fst (project self mean covariance confidence))) ->
  exists L new_mean new_covariance self',
    let K := kalman_gain (L, true) covariance in
    update self mean covariance measurement confidence
      = (Ok (new_mean, new_covariance), self') /\
    linalg.cho_factor 4 (snd (fst (project self mean covariance confidence))) = Ok (L, true) /\
    eq2 8 8 new_covariance (dot 8 (sub2 eye (dot 4 K _update_mat)) covariance) /\
    eq2 8 8 new_covariance
        (fun i j => covariance i j - sum_n 4 (fun l => K i l * covariance l j)).
Proof.
  intros Hpd. destruct (pos_def_cholesky 4 _ Hpd) as [L E]. destruct Hpd as [Hs _].
  pose proof (update_covariance_textbook_eq self mean covariance measurement confidence
                L Hs E) as Ht.
  pose proof (update_ok self mean covariance measurement confidence L E) as Hu.
  cbv zeta in Hu. rewrite Hu in Ht. cbn [fst snd] in Ht.
  eexists L, _, _, _. cbv zeta.
  split; [exact Hu|].
  split; [unfold linalg.cho_factor; rewrite E; reflexivity|].
  split; [exact Ht|].
  intros i j Hi Hj. rewrite (Ht i j Hi Hj).
  rewrite dot_sub_l, (dot_eye_l 8 covariance i j Hi), dot_assoc. f_equal.
  unfold dot at 1. apply sum_n_ext. intros l Hl. f_equal.
  unfold _update_mat. apply dot_eye_l. lia.
Qed.

Lemma update_covariance_textbook_witness :
  exists new_mean new_covariance self',
    update __init__ example_mean eye example_measurement 0
    = (Ok (new_mean, new_covariance), self') /\
    new_covariance 0%nat 0%nat = 1 / 2 /\
    new_covariance 4%nat 4%nat = 1 /\
    new_covariance 0%nat 1%nat = 0.
Proof.
  destruct (update_covariance_textbook __init__ example_mean eye example_measurement 0
              (project_cov_pos_def_init _ _))
    as [L [m' [P' [s' [E [Ef [_ HP]]]]]]].
  pose proof (example_gain L (cho_factor_ok _ _ _ Ef)) as HK.
  exists m', P', s'. split; [exact E|].
  split; [|split]; rewrite HP by lia; cbn [sum_n]; rewrite !HK by lia;
    eval_example; lra.
Defined.

(** X2: for a symmetric covariance whose projection is positive definite,
    the covariance that [update] returns is [P - K Sigma K^T]: no quadratic
    form of it, and no variance on its diagonal, exceeds that of the
    covariance passed in. *)
Theorem update_shrinks_covariance self mean covariance measurement confidence :
  symmetric 8 covariance ->
  pos_def 4 (snd (fst (project self mean covariance confidence))) ->
  exists L new_mean new_covariance self',
    let K := kalman_gain (L, true) covariance in
    let Sigma := snd (fst (project self mean covariance confidence)) in
    update self mean covariance measurement confidence
      = (Ok (new_mean, new_covariance), self') /\
    eq2 8 8 new_covariance (sub2 covariance (dot 4 K (dot 4 Sigma (T K)))) /\
    (forall x, quad 8 new_covariance x <= quad 8 covariance x) /\
    (forall i, (i < 8)%nat -> new_covariance i i <= covariance i i).
Proof.
  intros HP Hpd. destruct (pos_def_cholesky 4 _ Hpd) as [L E].
  pose proof (pos_def_psd 4 _ Hpd) as [_ Hq]. destruct Hpd as [Hs _].
  pose proof (update_covariance_textbook_eq self mean covariance measurement confidence
                L Hs E) as Ht.
  pose proof (update_ok self mean covariance measurement confidence L E) as Hu.
  cbv zeta in Hu. rewrite Hu in Ht. cbn [fst snd] in Ht.
  eexists L, _, _, _. cbv zeta.
  split; [exact Hu|].
  match goal with |- eq2 8 8 ?P' ?S /\ _ => assert (He : eq2 8 8 P' S) end.
  { intros i j Hi Hj. rewrite (Ht i j Hi Hj).
    rewrite dot_sub_l, (dot_eye_l 8 covariance i j Hi). unfold sub2. f_equal.
    apply (gain_congruence _ covariance _ HP Hs (kalman_gain_solves _ L covariance Hs E));
      assumption. }
  split; [exact He|].
  assert (Hx : forall x, quad 8
                (add2 (linalg.multi_dot 8 8 8 8
                         (sub2 _I (dot 4 (kalman_gain (L, true) covariance) _update_mat))
                         covariance
                         (T (sub2 _I (dot 4 (kalman_gain (L, true) covariance) _update_mat))))
                      (linalg.multi_dot 8 4 4 8 (kalman_gain (L, true) covariance)
                         (_measurement_noise (snd (project self mean covariance confidence)))
                         (T (kalman_gain (L, true) covariance)))) x
              <= quad 8 covariance x).
  { intros x. rewrite (quad_ext 8 _ _ x x He (fun i _ => eq_refl)).
    rewrite quad_sub, quad_congruence.
    specialize (Hq (dot_vm 8 x (kalman_gain (L, true) covariance))). lra. }
  split; [exact Hx|].
  intros i Hi. pose proof (Hx (fun k => eye i k)) as Hb.
  rewrite !quad_basis in Hb by exact Hi. exact Hb.
Qed.

Lemma update_shrinks_covariance_witness :
  exists new_mean new_covariance self',
    update __init__ example_mean eye example_measurement 0
    = (Ok (new_mean, new_covariance), self') /\
    forall i, (i < 8)%nat -> new_covariance i i <= 1.
Proof.
  destruct (update_shrinks_covariance __init__ example_mean eye example_measurement 0
              (symmetric_eye 8) (project_cov_pos_def_init _ _))
    as [L [m' [P' [s' [E [_ [_ Hd]]]]]]].
  exists m', P', s'. split; [exact E|].
  intros i Hi. specialize (Hd i Hi). unfold eye in Hd. rewrite Nat.eqb_refl in Hd. exact Hd.
Defined.

(** ** The residual that [update] stores *)

Lemma update_residual_gain self mean covariance measurement confidence L :
  linalg.cholesky 4 (snd (fst (project self mean covariance confidence))) = Ok L ->
  let K := kalman_gain (L, true) covariance in
  let nu := sub1 measurement (dot_mv 8 _update_mat mean) in
  eq1 8 (fst (match fst (update self mean covariance measurement confidence) with
              | Ok mc => mc
              | LinAlgError => (mean, covariance)
              end))
      (fun i => mean i + sum_n 4 (fun l => K i l * nu l)) /\
  eq1 4 (_residual (snd (update self mean covariance measurement confidence)))
      (fun i => nu i - sum_n 4 (fun l => K i l * nu l)).
Proof.
  intros E K nu.
  rewrite (update_ok self mean covariance measurement confidence L E). cbv zeta. cbn [fst snd].
  assert (Hm : forall i, add1 mean (dot_vm 4 (innovation measurement
                 (fst (fst (project self mean covariance confidence)))) (T K)) i
               = mean i + sum_n 4 (fun l => K i l * nu l)).
  { intros i. unfold add1, dot_vm, T. f_equal. apply sum_n_ext. intros l _.
    unfold innovation, nu. cbn [fst project]. ring. }
  split.
  - intros i _. apply Hm.
  - intros i Hi. cbn [_residual set_residual]. unfold sub1 at 1.
    rewrite update_mat_dot_mv by lia. fold K. rewrite Hm.
    assert (En : nu i = measurement i - mean i)
      by (unfold nu, sub1; rewrite update_mat_dot_mv by lia; reflexivity).
    rewrite En. ring.
Qed.

Lemma update_process_noise_eq self mean covariance measurement confidence L :
  linalg.cholesky 4 (snd (fst (project self mean covariance confidence))) = Ok L ->
  eq2 8 8 (_process_noise (snd (update self mean covariance measurement confidence)))
      (add2 (scale2 (9 / 10)
                    (add2 (_process_noise self)
                          (diag (square (array (update_std self mean))))))
            (scale2 (1 / 10)
                    (dot 4 (kalman_gain (L, true) covariance)
                         (dot 4 (outer (sub1 measurement (dot_mv 8 _update_mat mean))
                                       (sub1 measurement (dot_mv 8 _update_mat mean)))
                                (T (kalman_gain (L, true) covariance)))))).
Proof.
  intros E i j Hi Hj.
  rewrite (update_ok self mean covariance measurement confidence L E). cbv zeta.
  cbn [snd _process_noise set_residual set_process_noise].
  unfold add2, scale2. rewrite multi_dot_eq.
  change (update_std (snd (project self mean covariance confidence)) mean)
    with (update_std self mean).
  change (_process_noise (snd (project self mean covariance confidence)))
    with (_process_noise self).
  change (innovation measurement (fst (fst (project self mean covariance confidence))))
    with (sub1 measurement (dot_mv 8 _update_mat mean)).
  unfold _forgetting_factor. lra.
Qed.

(** X3: a successful [update] with the measurement equal to the projected
    mean returns the mean it was given, stores a zero residual, and adds
    no empirical term to the process noise, which becomes
    [0.9 (Q_old + A)]. *)
Theorem update_zero_innovation
        self mean covariance measurement confidence mean' covariance' self' :
  update self mean covariance measurement confidence = (Ok (mean', covariance'), self') ->
  eq1 4 measurement (dot_mv 8 _update_mat mean) ->
  eq1 8 mean' mean /\
  eq1 4 (_residual self') zeros1 /\
  eq2 8 8 (_process_noise self')
      (scale2 (9 / 10)
              (add2 (_process_noise self) (diag (square (array (update_std self mean)))))).
Proof.
  intros Hu Hz.
  destruct (linalg.cholesky 4 (snd (fst (project self mean covariance confidence))))
    as [L|] eqn:E.
  2:{ rewrite (update_error self mean covariance measurement confidence E) in Hu.
      discriminate. }
  destruct (update_residual_gain self mean covariance measurement confidence L E)
    as [Hm Hr]. rewrite Hu in Hm, Hr. cbn [fst snd] in Hm, Hr.
  assert (Hnu : forall l, (l < 4)%nat ->
                  sub1 measurement (dot_mv 8 _update_mat mean) l = 0).
  { intros l Hl. unfold sub1. rewrite (Hz l Hl). ring. }
  split; [|split].
  - intros i Hi. rewrite (Hm i Hi). rewrite sum_n_zero; [ring|].
    intros l Hl. rewrite (Hnu l Hl). ring.
  - intros i Hi. rewrite (Hr i Hi). rewrite (Hnu i Hi). rewrite sum_n_zero; [unfold zeros1; ring|].
    intros l Hl. rewrite (Hnu l Hl). ring.
  - intros i j Hi Hj.
    pose proof (update_process_noise_eq self mean covariance measurement confidence L E
                  i j Hi Hj) as HQ.
    rewrite Hu in HQ. cbn [snd] in HQ. rewrite HQ. unfold add2 at 1.
    replace (scale2 (1 / 10)
               (dot 4 (kalman_gain (L, true) covariance)
                  (dot 4 (outer (sub1 measurement (dot_mv 8 _update_mat mean))
                                (sub1 measurement (dot_mv 8 _update_mat mean)))
                         (T (kalman_gain (L, true) covariance)))) i j) with 0; [ring|].
    symmetry. unfold scale2, dot at 1. rewrite sum_n_zero; [ring|]. intros l Hl.
    unfold dot. rewrite sum_n_zero; [ring|]. intros p Hp.
    unfold outer. rewrite (Hnu l Hl). ring.
Qed.

Lemma update_zero_innovation_witness :
  exists mean' covariance' self',
    update __init__ example_mean eye (array [100; 100; 1 / 2; 20]) 0
    = (Ok (mean', covariance'), self') /\
    eq1 8 mean' example_mean /\
    eq1 4 (_residual self') zeros1.
Proof.
  destruct (update_succeeds __init__ example_mean eye (array [100; 100; 1 / 2; 20]) 0
              (project_cov_pos_def_init _ _))
    as [m' [P' [s' E]]].
  assert (Hz : eq1 4 (array [100; 100; 1 / 2; 20]) (dot_mv 8 _update_mat example_mean)).
  { intros i Hi. rewrite update_mat_dot_mv by lia.
    unfold array, example_mean, array. index_cases i; reflexivity. }
  destruct (update_zero_innovation _ _ _ _ _ _ _ _ E Hz) as [Hm [Hr _]].
  exists m', P', s'. split; [exact E|]. split; assumption.
Defined.

(** X4: when the projected covariance [Sigma] is positive definite, the
    residual that [update] stores is the innovation less the gain applied
    to it, which is [R Sigma^-1 nu] for the measurement noise [R] that the
    projection assigned. *)
Theorem update_residual_weighted self mean covariance measurement confidence :
  let pr := project self mean covariance confidence in
  let Sigma := snd (fst pr) in
  let R_new := _measurement_noise (snd pr) in
  let nu := sub1 measurement (dot_mv 8 _update_mat mean) in
  pos_def 4 Sigma ->
  exists L new_mean new_covariance self',
    let K := kalman_gain (L, true) covariance in
    update self mean covariance measurement confidence
      = (Ok (new_mean, new_covariance), self') /\
    linalg.cho_factor 4 Sigma = Ok (L, true) /\
    eq1 4 (_residual self') (fun i => nu i - sum_n 4 (fun l => K i l * nu l)) /\
    (forall Sinv, inverse 4 Sigma Sinv ->
       eq1 4 (_residual self') (dot_mv 4 (dot 4 R_new Sinv) nu)).
Proof.
  intros pr Sigma R_new nu Hpd.
  destruct (pos_def_cholesky 4 Sigma Hpd) as [L E]. destruct Hpd as [Hs _].
  pose proof (update_ok self mean covariance measurement confidence L E) as Hu.
  cbv zeta in Hu.
  destruct (update_residual_gain self mean covariance measurement confidence L E)
    as [_ Hr].
  eexists L, _, _, _. cbv zeta. split; [exact Hu|].
  split; [unfold linalg.cho_factor; rewrite E; reflexivity|].
  rewrite Hu in Hr. cbn [snd] in Hr.
  split; [exact Hr|].
  intros Sinv Hinv i Hi. rewrite (Hr i Hi). fold nu.
  set (K := kalman_gain (L, true) covariance).
  assert (HK : forall q, (q < 4)%nat -> K i q = eye i q - dot 4 R_new Sinv i q).
  { intros q Hq. unfold K.
    rewrite (kalman_gain_inverse Sigma Sinv L covariance Hs E Hinv i q) by lia.
    destruct Hinv as [Hinv _]. rewrite <- (Hinv i q Hi Hq).
    rewrite <- dot_sub_l. apply dot_ext; [|reflexivity].
    intros p Hp. unfold sub2, Sigma, R_new, pr.
    rewrite (project_cov_split self mean covariance confidence i p Hi Hp).
    unfold add2, _update_mat. rewrite dot_eye_l by lia. ring. }
  unfold dot_mv.
  rewrite (sum_n_ext 4 (fun l => K i l * nu l)
             (fun l => eye i l * nu l - dot 4 R_new Sinv i l * nu l))
    by (intros l Hl; rewrite (HK l Hl); ring).
  rewrite sum_n_minus, (sum_n_eye_l 4 i nu Hi). ring.
Qed.

Lemma update_residual_weighted_witness :
  exists self',
    snd (update __init__ example_mean eye example_measurement 0) = self' /\
    fst (update __init__ example_mean eye example_measurement 0) <> LinAlgError /\
    _residual self' 3%nat = 1 / 2.
Proof.
  destruct (update_residual_weighted __init__ example_mean eye example_measurement 0
              (project_cov_pos_def_init _ _))
    as [L [m' [P' [s' [E [Ef [Hr _]]]]]]].
  pose proof (example_gain L (cho_factor_ok _ _ _ Ef)) as HK.
  exists s'. rewrite E. split; [reflexivity|]. split; [discriminate|].
  rewrite Hr by lia. cbn [sum_n]. rewrite !HK by lia. eval_example. lra.
Defined.

(** ** Positive definite covariances *)

Lemma pos_def_congruence n m B P :
  pos_def m P ->
  (forall x, nonzero n x -> nonzero m (dot_vm n x B)) ->
  pos_def n (dot m B (dot m P (T B))).
Proof.
  intros [Hs Hq] Hinj. split; [apply symmetric_congruence, Hs|].
  intros x Hx. rewrite quad_congruence. apply Hq, Hinj, Hx.
Qed.

Lemma pos_def_scale n c A : 0 < c -> pos_def n A -> pos_def n (scale2 c A).
Proof.
  intros Hc [Hs Hq]. split.
  - intros i j Hi Hj. unfold scale2. rewrite (Hs i j) by assumption. reflexivity.
  - intros x Hx. rewrite quad_scale. apply Rmult_lt_0_compat; [assumption|apply Hq, Hx].
Qed.

Lemma psd_add_pos_def n A B :
  pos_semi_def n A -> pos_def n B -> pos_def n (add2 A B).
Proof.
  intros [HsA HqA] [HsB HqB]. split.
  - intros i j Hi Hj. unfold add2. rewrite (HsA i j), (HsB i j) by assumption. reflexivity.
  - intros x Hx. rewrite quad_add. specialize (HqA x). specialize (HqB x Hx). lra.
Qed.

Lemma pos_def_diag_pos n A i : pos_def n A -> (i < n)%nat -> 0 < A i i.
Proof.
  intros [_ Hq] Hi. rewrite <- (quad_basis n A i Hi). apply Hq.
  exists i. split; [assumption|]. unfold eye. rewrite Nat.eqb_refl. lra.
Qed.

Lemma pos_def_diag_square n v :
  pos_def n (diag (square v)) <-> (forall i, (i < n)%nat -> v i <> 0).
Proof.
  split.
  - intros Hpd i Hi E. pose proof (pos_def_diag_pos n _ i Hpd Hi) as Hp.
    unfold diag, square in Hp. rewrite Nat.eqb_refl, E in Hp. simpl in Hp. lra.
  - intros Hv. apply pos_def_diagonal.
    + intros i j _ _ Hne. unfold diag. apply Nat.eqb_neq in Hne. rewrite Hne. reflexivity.
    + intros i Hi. unfold diag, square. rewrite Nat.eqb_refl.
      pose proof (pow2_ge_0 (v i)). pose proof (pow_nonzero (v i) 2 (Hv i Hi)). lra.
Qed.

Lemma pos_def_measured A : pos_def 8 A -> pos_def 4 A.
Proof. intros H. do 4 apply pos_def_leading. exact H. Qed.

(** The rows of the transition matrix and of the observation matrix are
    independent. *)
Lemma motion_mat_dot_vm x :
  (forall j, (j < 4)%nat -> dot_vm 8 x _motion_mat j = x j) /\
  (forall j, (4 <= j < 8)%nat -> dot_vm 8 x _motion_mat j = x j + dt * x (j - 4)%nat).
Proof.
  split; intros j Hj; index_cases j;
    cbv [dot_vm sum_n _motion_mat fold_left seq ndim setitem eye Nat.eqb andb Nat.add
         Nat.sub dt];
    ring.
Qed.

Lemma motion_mat_independent x :
  nonzero 8 x -> nonzero 8 (dot_vm 8 x _motion_mat).
Proof.
  intros [i [Hi Hx]]. destruct (motion_mat_dot_vm x) as [Hlo Hhi].
  destruct (zero_or_nonzero 4 x) as [Hz|[k [Hk Hxk]]].
  - assert (H4 : (4 <= i)%nat).
    { destruct (le_lt_dec 4 i) as [H|H]; [exact H|]. exfalso. apply Hx. apply (Hz i H). }
    exists i. split; [exact Hi|]. rewrite Hhi by lia.
    rewrite (Hz (i - 4)%nat) by lia. unfold zeros1, dt.
    intros E. apply Hx. lra.
  - exists k. split; [lia|]. rewrite Hlo by exact Hk. exact Hxk.
Qed.

Lemma update_mat_dot_vm x j : (j < 4)%nat -> dot_vm 4 x _update_mat j = x j.
Proof. intros Hj. unfold dot_vm, _update_mat. apply (sum_n_eye_r 4 j x Hj). Qed.

Lemma update_mat_independent x :
  nonzero 4 x -> nonzero 8 (dot_vm 4 x _update_mat).
Proof.
  intros [i [Hi Hx]]. exists i. split; [lia|]. rewrite update_mat_dot_vm by exact Hi. exact Hx.
Qed.

Lemma predict_pos_def self mean covariance :
  pos_def 8 covariance -> pos_semi_def 8 (_process_noise self) ->
  pos_def 8 (snd (fst (predict self mean covariance))).
Proof.
  intros HP HQ. unfold predict. cbn [fst snd].
  apply pos_def_add_psd; [|exact HQ].
  apply (pos_def_ext 8 (dot 8 _motion_mat (dot 8 covariance (T _motion_mat)))).
  - intros i j _ _. symmetry. apply multi_dot_eq.
  - apply pos_def_congruence; [exact HP|apply motion_mat_independent].
Qed.

(** With a positive definite covariance the measurement noise that
    [project] assigns is positive definite. *)
Lemma project_noise_pos_def self mean covariance confidence :
  pos_def 8 covariance -> noise_psd self ->
  pos_def 4 (_measurement_noise (snd (project self mean covariance confidence))).
Proof.
  intros HP [_ HR]. destruct forgetting_factor_bounds as [Hf _].
  unfold project. cbn [snd _measurement_noise set_measurement_noise].
  apply psd_add_pos_def; [auto with psd|].
  apply pos_def_scale; [unfold _forgetting_factor; lra|].
  apply psd_add_pos_def; [apply psd_outer|].
  apply (pos_def_ext 4 (dot 8 _update_mat (dot 8 covariance (T _update_mat)))).
  - intros i j _ _. symmetry. apply multi_dot_eq.
  - apply pos_def_congruence; [exact HP|apply update_mat_independent].
Qed.

Lemma dot_vm_I_KH K x j :
  (j < 8)%nat ->
  dot_vm 8 x (sub2 _I (dot 4 K _update_mat)) j
  = x j - (if Nat.ltb j 4 then dot_vm 8 x K j else 0).
Proof.
  intros Hj. unfold dot_vm, sub2, _I.
  rewrite (sum_n_ext 8 _ (fun l => x l * eye l j - x l * dot 4 K _update_mat l j))
    by (intros l _; ring).
  rewrite sum_n_minus, (sum_n_eye_r 8 j x Hj). f_equal.
  destruct (Nat.ltb j 4) eqn:E.
  - apply Nat.ltb_lt in E. apply sum_n_ext. intros l _. f_equal.
    unfold _update_mat. apply dot_eye_r, E.
  - apply Nat.ltb_ge in E. apply sum_n_zero. intros l _.
    unfold dot. rewrite sum_n_zero; [ring|]. intros p Hp.
    unfold _update_mat, eye. replace (Nat.eqb p j) with false; [ring|].
    symmetry. apply Nat.eqb_neq. lia.
Qed.

(** The Joseph form of a positive definite covariance and a positive
    definite measurement noise is positive definite, for every gain. *)
Lemma joseph_pos_def K P Rm :
  pos_def 8 P -> pos_def 4 Rm ->
  pos_def 8 (add2 (linalg.multi_dot 8 8 8 8 (sub2 _I (dot 4 K _update_mat)) P
                                    (T (sub2 _I (dot 4 K _update_mat))))
                  (linalg.multi_dot 8 4 4 8 K Rm (T K))).
Proof.
  intros HP HR.
  pose proof (pos_def_psd 8 P HP) as HP0. pose proof (pos_def_psd 4 Rm HR) as HR0.
  split; [apply psd_add; auto with psd|].
  set (A := sub2 _I (dot 4 K _update_mat)).
  intros x [k [Hk Hx]]. rewrite quad_add.
  rewrite (quad_ext 8 _ (dot 8 A (dot 8 P (T A))) x x)
    by (try (intros i j _ _; apply multi_dot_eq); intros i _; reflexivity).
  rewrite (quad_ext 8 (linalg.multi_dot 8 4 4 8 K Rm (T K)) (dot 4 K (dot 4 Rm (T K))) x x)
    by (try (intros i j _ _; apply multi_dot_eq); intros i _; reflexivity).
  rewrite !quad_congruence.
  destruct HP as [_ HqP]. destruct HR as [_ HqR].
  destruct HP0 as [_ HqP0]. destruct HR0 as [_ HqR0].
  destruct (zero_or_nonzero 8 (dot_vm 8 x A)) as [Hz|Hnz].
  - assert (Hxk : (k < 4)%nat /\ dot_vm 8 x K k <> 0).
    { pose proof (Hz k Hk) as E. unfold A in E. rewrite dot_vm_I_KH in E by exact Hk.
      unfold zeros1 in E. destruct (Nat.ltb k 4) eqn:E4.
      - apply Nat.ltb_lt in E4. split; [exact E4|]. intros E0. apply Hx. lra.
      - exfalso. apply Hx. lra. }
    assert (0 < quad 4 Rm (dot_vm 8 x K))
      by (apply HqR; exists k; exact Hxk).
    specialize (HqP0 (dot_vm 8 x A)). lra.
  - specialize (HqP _ Hnz). specialize (HqR0 (dot_vm 8 x K)). lra.
Qed.

Lemma update_pos_def self mean covariance measurement confidence mean' covariance' self' :
  pos_def 8 covariance -> noise_psd self ->
  update self mean covariance measurement confidence = (Ok (mean', covariance'), self') ->
  pos_def 8 covariance' /\ noise_psd self'.
Proof.
  intros HP Hn Hu.
  pose proof (pos_def_psd 8 _ HP) as HP0.
  destruct (linalg.cholesky 4 (snd (fst (project self mean covariance confidence))))
    as [L|] eqn:E.
  2:{ rewrite (update_error self mean covariance measurement confidence E) in Hu.
      discriminate. }
  rewrite (update_ok self mean covariance measurement confidence L E) in Hu.
  cbv zeta in Hu. injection Hu as _ EP Es. subst covariance' self'.
  pose proof (project_noise_pos_def self mean covariance confidence HP Hn) as HR.
  destruct (project_noise_psd self mean covariance confidence HP0 Hn) as [HQ1 HR1].
  destruct forgetting_factor_bounds as [Hf Hf'].
  split; [apply joseph_pos_def; assumption|].
  split; [|exact HR1].
  cbn [_process_noise set_residual set_process_noise]. auto 6 with psd.
Qed.

(** The invariant of a track whose covariance is positive definite. *)
Lemma track_steps_pos_def self mean covariance self' mean' covariance' :
  pos_def 8 covariance -> noise_psd self ->
  track_steps self mean covariance self' mean' covariance' ->
  pos_def 8 covariance' /\ noise_psd self'.
Proof.
  intros HP Hn Hs.
  induction Hs as [|self m P s1 m1 P1 s2 m2 P2 _ IH Hstep]; [split; assumption|].
  destruct (IH HP Hn) as [HP1 Hn1]. clear IH.
  pose proof (pos_def_psd 8 _ HP1) as HP0.
  inversion Hstep; subst.
  - split; [apply predict_pos_def; [assumption|apply Hn1]|exact Hn1].
  - eapply update_pos_def; eassumption.
  - split; [exact HP1|apply project_noise_psd; assumption].
  - split; [exact HP1|]. rewrite gating_distance_state. apply project_noise_psd; assumption.
  - split; [exact HP1|exact Hn1].
Qed.

Lemma gating_distance_succeeds self mean covariance measurements (only_position : bool) :
  pos_def 4 (snd (fst (project self mean covariance 0))) ->
  exists distances,
    fst (gating_distance self mean covariance measurements only_position) = Ok distances.
Proof.
  intros Hpd.
  destruct (pos_def_cholesky _ _ (pos_def_gating_block only_position _ Hpd)) as [L E].
  rewrite (gating_distance_ok self mean covariance measurements only_position L E).
  eexists. reflexivity.
Qed.

(** X5: in exact arithmetic, on a track whose covariance is positive
    definite and whose noise matrices are symmetric positive semi-definite,
    after any number of calls of [predict], successful [update], [project]
    and [gating_distance] and of assignments of the image size, the
    covariance is still positive definite, with positive variances on its
    diagonal, the noise matrices are still symmetric positive
    semi-definite, and the covariance that [project] returns is positive
    definite at every confidence. *)
Theorem track_covariance_definite self mean covariance self' mean' covariance' :
  pos_def 8 covariance -> noise_psd self ->
  track_steps self mean covariance self' mean' covariance' ->
  pos_def 8 covariance' /\
  noise_psd self' /\
  (forall i, (i < 8)%nat -> 0 < covariance' i i) /\
  (forall confidence,
     pos_def 4 (snd (fst (project self' mean' covariance' confidence)))).
Proof.
  intros HP Hn Hs.
  destruct (track_steps_pos_def _ _ _ _ _ _ HP Hn Hs) as [HP' Hn'].
  split; [exact HP'|]. split; [exact Hn'|]. split.
  - intros i Hi. apply (pos_def_diag_pos 8 covariance' i HP' Hi).
  - intros c. apply project_cov_pos_def;
      [apply pos_def_psd, HP'|apply pos_def_measured, HP'|exact Hn'].
Qed.

Lemma track_covariance_definite_witness :
  pos_def 8 (snd (fst (predict __init__ example_mean eye))) /\
  0 < snd (fst (predict __init__ example_mean eye)) 0%nat 0%nat.
Proof.
  assert (Hs : track_steps __init__ example_mean eye
                 (snd (gating_distance __init__
                         (fst (fst (predict __init__ example_mean eye)))
                         (snd (fst (predict __init__ example_mean eye)))
                         [example_measurement] false))
                 (fst (fst (predict __init__ example_mean eye)))
                 (snd (fst (predict __init__ example_mean eye)))).
  { eapply steps_more; [eapply steps_more; [apply steps_none|apply step_predict]|].
    apply (step_gating (snd (predict __init__ example_mean eye))). }
  destruct (track_covariance_definite _ _ _ _ _ _ (pos_def_eye 8) noise_psd_init Hs)
    as [HP [_ [Hd _]]].
  split; [exact HP|apply Hd; lia].
Defined.

(** ** The distance to the image centre and the initial covariance *)

Lemma distance_zero_iff self bbox :
  distance_to_image_center self bbox = 0 <->
  bbox 0%nat = image_width self / 2 /\ bbox 1%nat = image_height self / 2.
Proof.
  unfold distance_to_image_center.
  set (u := image_width self / 2 - bbox 0%nat).
  set (v := image_height self / 2 - bbox 1%nat).
  pose proof (pow2_ge_0 u) as Hu0. pose proof (pow2_ge_0 v) as Hv0.
  split.
  - intros E. apply sqrt_eq_0 in E; [|lra].
    assert (Hu : u ^ 2 = 0) by lra. assert (Hv : v ^ 2 = 0) by lra.
    assert (u = 0) by (destruct (Req_dec u 0) as [|N]; [assumption|];
                       exfalso; apply (pow_nonzero u 2 N); exact Hu).
    assert (v = 0) by (destruct (Req_dec v 0) as [|N]; [assumption|];
                       exfalso; apply (pow_nonzero v 2 N); exact Hv).
    unfold u, v in *. split; lra.
  - intros [E0 E1]. unfold u, v. rewrite E0, E1.
    replace ((image_width self / 2 - image_width self / 2) ^ 2
             + (image_height self / 2 - image_height self / 2) ^ 2) with 0 by ring.
    apply sqrt_0.
Qed.

(** X6: the distance to the image centre is never negative, is zero for a
    box centred at [(image_width / 2, image_height / 2)], reads only the
    first two components of the box, and its square is the sum of the
    squares of the two offsets. *)
Theorem distance_to_image_center_spec self bbox :
  0 <= distance_to_image_center self bbox /\
  (bbox 0%nat = image_width self / 2 -> bbox 1%nat = image_height self / 2 ->
   distance_to_image_center self bbox = 0) /\
  (forall bbox', bbox' 0%nat = bbox 0%nat -> bbox' 1%nat = bbox 1%nat ->
     distance_to_image_center self bbox' = distance_to_image_center self bbox) /\
  distance_to_image_center self bbox ^ 2
  = (image_width self / 2 - bbox 0%nat) ^ 2 + (image_height self / 2 - bbox 1%nat) ^ 2.
Proof.
  split; [apply sqrt_pos|]. split; [intros E0 E1; apply distance_zero_iff; split; assumption|].
  split.
  - intros bbox' E0 E1. unfold distance_to_image_center. rewrite E0, E1. reflexivity.
  - unfold distance_to_image_center.
    set (u := image_width self / 2 - bbox 0%nat).
    set (v := image_height self / 2 - bbox 1%nat).
    replace (sqrt (u ^ 2 + v ^ 2) ^ 2) with (sqrt (u ^ 2 + v ^ 2) * sqrt (u ^ 2 + v ^ 2))
      by ring.
    apply sqrt_sqrt. pose proof (pow2_ge_0 u). pose proof (pow2_ge_0 v). lra.
Qed.

Lemma initiate_std_nonzero self measurement :
  (forall i, (i < 8)%nat -> array (initiate_std self measurement) i <> 0) <->
  (distance_to_image_center self measurement <> 0 /\
   measurement 2%nat <> 0 /\ measurement 3%nat <> 0).
Proof.
  unfold initiate_std, array, _std_weight_position, _std_weight_velocity.
  set (d := distance_to_image_center self measurement).
  split.
  - intros H. pose proof (H 0%nat) as H0. pose proof (H 2%nat) as H2.
    pose proof (H 3%nat) as H3. cbn [nth] in H0, H2, H3.
    repeat split; intros E.
    + apply H0; [lia|]. rewrite E. ring.
    + apply H2; [lia|]. rewrite E. ring.
    + apply H3; [lia|]. rewrite E. ring.
  - intros [Hd [Ha Hh]] i Hi. index_cases i; cbn [nth]; intros E.
    + apply Hd. lra.
    + apply Hd. lra.
    + apply Ha. lra.
    + apply Hh. lra.
    + apply Hd. lra.
    + apply Hd. lra.
    + apply Ha. lra.
    + apply Hh. lra.
Qed.

(** X7: the covariance that [initiate] returns is always symmetric positive
    semi-definite; it is singular, so not positive definite, for a box
    centred at the image centre, for a box of aspect ratio zero and for a
    box of height zero: the variances of [x], of [a] and of [h] are then
    zero. *)
Theorem initiate_covariance_definite self measurement :
  pos_semi_def 8 (snd (initiate self measurement)) /\
  (pos_def 8 (snd (initiate self measurement)) ->
   ~ (measurement 0%nat = image_width self / 2 /\
      measurement 1%nat = image_height self / 2) /\
   measurement 2%nat <> 0 /\ measurement 3%nat <> 0) /\
  (measurement 0%nat = image_width self / 2 ->
   measurement 1%nat = image_height self / 2 ->
   snd (initiate self measurement) 0%nat 0%nat = 0) /\
  (measurement 2%nat = 0 -> snd (initiate self measurement) 2%nat 2%nat = 0) /\
  (measurement 3%nat = 0 -> snd (initiate self measurement) 3%nat 3%nat = 0).
Proof.
  split; [apply psd_diag_square|]. split.
  - unfold initiate. cbn [snd].
    rewrite pos_def_diag_square, initiate_std_nonzero, distance_zero_iff. tauto.
  - unfold initiate, initiate_std. cbn [snd].
    cbv [diag square array nth Nat.eqb]. split; [|split].
    + intros E0 E1.
      rewrite (proj2 (distance_zero_iff self measurement) (conj E0 E1)). ring.
    + intros E. rewrite E. ring.
    + intros E. rewrite E. ring.
Qed.

(** X8: along every history of a track the two noise matrices of the
    instance stay symmetric positive semi-definite. *)
Theorem noise_invariant self mean covariance :
  tracking self mean covariance ->
  pos_semi_def 8 (_process_noise self) /\ pos_semi_def 4 (_measurement_noise self).
Proof. intros Ht. apply (tracking_invariant self mean covariance Ht). Qed.

Lemma noise_invariant_witness :
  pos_semi_def 8
    (_process_noise
       (snd (gating_distance __init__
               (fst (initiate __init__ example_measurement))
               (snd (initiate __init__ example_measurement))
               [example_measurement] true))) /\
  pos_semi_def 4
    (_measurement_noise
       (snd (gating_distance __init__
               (fst (initiate __init__ example_measurement))
               (snd (initiate __init__ example_measurement))
               [example_measurement] true))).
Proof.
  exact (noise_invariant _ _ _
           (tracking_gating _ _ _ [example_measurement] true
              (tracking_initiate __init__ example_measurement noise_psd_init))).
Defined.

(** ** Repeated prediction *)

Lemma predicts_S n self mean covariance :
  predicts (S n) self mean covariance
  = fst (predict self (fst (predicts n self mean covariance))
                      (snd (predicts n self mean covariance))).
Proof. reflexivity. Qed.

(** X9: [n] calls of [predict] in a row add [n] times its velocity to each
    position component of the mean and keep the velocities; a mean that
    [initiate] returned, whose velocities are zero, is returned unchanged. *)
Theorem predicts_mean n self mean covariance :
  (forall i, (i < 4)%nat ->
     fst (predicts n self mean covariance) i = mean i + INR n * mean (i + 4)%nat) /\
  (forall i, (4 <= i < 8)%nat -> fst (predicts n self mean covariance) i = mean i) /\
  (forall measurement,
     eq1 8 (fst (predicts n self (fst (initiate self measurement)) covariance))
           (fst (initiate self measurement))).
Proof.
  assert (H : forall m,
             (forall i, (i < 4)%nat ->
                fst (predicts n self m covariance) i = m i + INR n * m (i + 4)%nat) /\
             (forall i, (4 <= i < 8)%nat -> fst (predicts n self m covariance) i = m i)).
  { intros m. induction n as [|n [IHp IHv]].
    - split; intros i Hi; unfold predicts; simpl; ring.
    - rewrite predicts_S.
      change (fst (fst (predict self (fst (predicts n self m covariance))
                                (snd (predicts n self m covariance)))))
        with (dot_mv 8 _motion_mat (fst (predicts n self m covariance))).
      destruct (motion_mat_dot_mv (fst (predicts n self m covariance))) as [Hp Hv].
      split; intros i Hi.
      + rewrite (Hp i Hi), (IHp i Hi), (IHv (i + 4)%nat) by lia.
        rewrite S_INR. unfold dt. ring.
      + rewrite (Hv i Hi). apply IHv, Hi. }
  split; [apply H|]. split; [apply H|].
  intros measurement i Hi. destruct (H (fst (initiate self measurement))) as [Hp Hv].
  destruct (le_lt_dec 4 i) as [H4|H4].
  - apply Hv. lia.
  - rewrite (Hp i H4). unfold initiate, r_, ndim, zeros1. cbn [fst].
    replace (Nat.ltb (i + 4) 4) with false by (symmetry; apply Nat.ltb_ge; lia). ring.
Qed.

(** ** A track that starts at the image centre *)

Lemma cholesky_first_pivot n a :
  a O O <= 0 -> linalg.cholesky (S n) a = LinAlgError.
Proof.
  intros H. simpl. destruct (Rlt_dec 0 (a O O)) as [Hp|_]; [lra|reflexivity].
Qed.

Lemma predict_keeps_zero_x self mean covariance :
  _process_noise self = zeros2 ->
  covariance 0%nat 0%nat = 0 -> covariance 0%nat 4%nat = 0 ->
  covariance 4%nat 0%nat = 0 -> covariance 4%nat 4%nat = 0 ->
  let P' := snd (fst (predict self mean covariance)) in
  P' 0%nat 0%nat = 0 /\ P' 0%nat 4%nat = 0 /\ P' 4%nat 0%nat = 0 /\ P' 4%nat 4%nat = 0.
Proof.
  intros HQ H00 H04 H40 H44. cbv zeta. unfold predict. cbn [fst snd]. unfold add2.
  rewrite HQ, !multi_dot_eq.
  cbv [dot sum_n T _motion_mat fold_left seq ndim setitem eye Nat.eqb andb Nat.add dt zeros2].
  repeat split; lra.
Qed.

(** X10: on a new instance, for a track initiated exactly at the image
    centre, an [update] with confidence 1 raises the error after any number
    of calls of [predict], whatever the measurement: the variance of [x]
    is zero and no measurement noise is added to it. *)
Theorem update_fails_at_image_centre w h measurement n z :
  measurement 0%nat = w / 2 ->
  measurement 1%nat = h / 2 ->
  let self := set_image_size w h __init__ in
  let mc := predicts n self (fst (initiate self measurement))
                            (snd (initiate self measurement)) in
  snd mc 0%nat 0%nat = 0 /\
  fst (update self (fst mc) (snd mc) z 1) = LinAlgError.
Proof.
  intros E0 E1 self mc.
  assert (Hd : distance_to_image_center self measurement = 0).
  { apply distance_zero_iff. unfold self. cbn [image_width image_height set_image_size].
    split; assumption. }
  assert (HI : snd mc 0%nat 0%nat = 0 /\ snd mc 0%nat 4%nat = 0 /\
               snd mc 4%nat 0%nat = 0 /\ snd mc 4%nat 4%nat = 0).
  { unfold mc. clear mc. induction n as [|n IH].
    - change (predicts 0 self (fst (initiate self measurement))
                                (snd (initiate self measurement)))
        with (fst (initiate self measurement), snd (initiate self measurement)).
      cbn [snd]. unfold initiate. cbn [snd].
      unfold diag, square, array, initiate_std. rewrite Hd. cbn [Nat.eqb nth].
      repeat split; ring.
    - rewrite predicts_S. destruct IH as [H00 [H04 [H40 H44]]].
      apply predict_keeps_zero_x; try assumption. reflexivity. }
  destruct HI as [H00 _]. split; [exact H00|].
  rewrite update_error; [reflexivity|]. apply cholesky_first_pivot.
  rewrite project_cov by lia. unfold add2 at 1. rewrite update_mat_block by lia.
  unfold spec_R_new, add2, scale2. rewrite update_mat_block by lia. rewrite H00.
  cbv [self set_image_size __init__ _measurement_noise _residual zeros1 zeros2 diag square
       spec_project_std scale1 array outer nth Nat.eqb].
  simpl. lra.
Qed.

Lemma update_fails_at_image_centre_witness :
  fst (update (set_image_size 1920 1080 __init__)
         (fst (predicts 1 (set_image_size 1920 1080 __init__)
                 (fst (initiate (set_image_size 1920 1080 __init__)
                                (array [960; 540; 1 / 2; 50])))
                 (snd (initiate (set_image_size 1920 1080 __init__)
                                (array [960; 540; 1 / 2; 50])))))
         (snd (predicts 1 (set_image_size 1920 1080 __init__)
                 (fst (initiate (set_image_size 1920 1080 __init__)
                                (array [960; 540; 1 / 2; 50])))
                 (snd (initiate (set_image_size 1920 1080 __init__)
                                (array [960; 540; 1 / 2; 50])))))
         (array [961; 541; 1 / 2; 50]) 1)
  = LinAlgError.
Proof.
  refine (proj2 (update_fails_at_image_centre 1920 1080 (array [960; 540; 1 / 2; 50]) 1
                   (array [961; 541; 1 / 2; 50]) _ _)).
  - unfold array. cbn [nth]. lra.
  - unfold array. cbn [nth]. lra.
Defined.

(** ** The recursion of the measurement noise *)

Lemma project_iter_frame N self mean covariance confidence :
  _residual (Nat.iter N (fun s => snd (project s mean covariance confidence)) self)
  = _residual self.
Proof.
  induction N as [|N IH]; [reflexivity|]. rewrite Nat.iter_succ. exact IH.
Qed.

Lemma gating_iter_project N self mean covariance measurements only_position :
  Nat.iter N (fun s => snd (gating_distance s mean covariance measurements only_position)) self
  = Nat.iter N (fun s => snd (project s mean covariance 0)) self.
Proof.
  induction N as [|N IH]; [reflexivity|].
  rewrite !Nat.iter_succ, gating_distance_state, IH. reflexivity.
Qed.

Lemma pow_9_10_50 : (9 / 10) ^ 50 < 1 / 100.
Proof.
  assert (H5 : (9 / 10) ^ 5 < 6 / 10) by (simpl; lra).
  assert (H0 : 0 <= (9 / 10) ^ 5) by (apply pow_le; lra).
  replace ((9 / 10) ^ 50) with (((9 / 10) ^ 5) ^ 10) by (rewrite <- pow_mult; reflexivity).
  set (a := (9 / 10) ^ 5) in *.
  assert (H2 : a ^ 2 <= 36 / 100) by nra.
  assert (H2' : 0 <= a ^ 2) by apply pow2_ge_0.
  replace (a ^ 10) with ((a ^ 2) ^ 5) by (rewrite <- pow_mult; reflexivity).
  set (b := a ^ 2) in *.
  assert (H4 : b ^ 2 <= 1296 / 10000) by nra.
  assert (H4' : 0 <= b ^ 2) by apply pow2_ge_0.
  replace (b ^ 5) with ((b ^ 2) * (b ^ 2) * b) by ring.
  set (c := b ^ 2) in *. nra.
Qed.

(** X11: [N] calls of [project] on the same state with the same confidence
    (so also [N] calls of [gating_distance], which projects with
    confidence 0) bring the measurement noise to
    [R_lim + 0.9^N (R_0 - R_lim)], where
    [R_lim = 9 diag(s^2) + r (outer) r + H P H^T] is the fixed point of the
    recursion; after 50 calls every entry is
    within one hundredth of its first distance from the fixed point. *)
Theorem measurement_noise_closed_form self mean covariance confidence N :
  let call := fun s => snd (project s mean covariance confidence) in
  let R_star := spec_R_limit (_residual self) mean covariance confidence in
  eq2 4 4 (_measurement_noise (Nat.iter N call self))
      (fun i j => R_star i j + (9 / 10) ^ N * (_measurement_noise self i j - R_star i j)) /\
  eq2 4 4 (spec_R_new R_star (_residual self) mean covariance confidence) R_star /\
  (forall measurements only_position,
     confidence = 0 ->
     Nat.iter N (fun s => snd (gating_distance s mean covariance measurements only_position))
              self
     = Nat.iter N call self) /\
  (forall i j, (i < 4)%nat -> (j < 4)%nat ->
     Rabs (_measurement_noise (Nat.iter 50 call self) i j - R_star i j)
     <= 1 / 100 * Rabs (_measurement_noise self i j - R_star i j)).
Proof.
  intros call R_star.
  assert (Hfix : eq2 4 4 (spec_R_new R_star (_residual self) mean covariance confidence)
                     R_star).
  { intros i j _ _. unfold R_star, spec_R_new, spec_R_limit, add2, scale2. field. }
  assert (Hc : forall n,
             eq2 4 4 (_measurement_noise (Nat.iter n call self))
               (fun i j => R_star i j
                           + (9 / 10) ^ n * (_measurement_noise self i j - R_star i j))).
  { intros n. induction n as [|n IH]; intros i j Hi Hj.
    - simpl. ring.
    - rewrite Nat.iter_succ. unfold call at 1.
      rewrite project_measurement_noise by assumption.
      unfold call. rewrite project_iter_frame. fold call.
      rewrite <- (Hfix i j Hi Hj) at 1.
      unfold spec_R_new, add2, scale2. rewrite (IH i j Hi Hj).
      change ((9 / 10) ^ S n) with (9 / 10 * (9 / 10) ^ n). ring. }
  split; [apply Hc|]. split; [exact Hfix|]. split.
  - intros ms op ->. apply gating_iter_project.
  - intros i j Hi Hj. rewrite (Hc 50%nat i j Hi Hj).
    replace (R_star i j + (9 / 10) ^ 50 * (_measurement_noise self i j - R_star i j)
             - R_star i j)
      with ((9 / 10) ^ 50 * (_measurement_noise self i j - R_star i j)) by ring.
    rewrite Rabs_mult. apply Rmult_le_compat_r; [apply Rabs_pos|].
    rewrite Rabs_pos_eq by (apply pow_le; lra). apply Rlt_le, pow_9_10_50.
Qed.

(** ** More on gating *)

Lemma solve_lower_prefix m n L b :
  (m <= n)%nat -> eq1 m (linalg.solve_lower m L b) (linalg.solve_lower n L b).
Proof.
  revert n L b; induction m as [|m IH]; intros n L b Hmn i Hi; [lia|].
  destruct n as [|n]; [lia|]. simpl. destruct i as [|i]; [reflexivity|].
  apply IH; lia.
Qed.

Lemma cholesky_prefix m n a L :
  (m <= n)%nat -> linalg.cholesky n a = Ok L ->
  exists L', linalg.cholesky m a = Ok L' /\ eq2 m m L' L.
Proof.
  revert n a L; induction m as [|m IH]; intros n a L Hmn E.
  - exists zeros2. split; [reflexivity|]. intros i j Hi; lia.
  - destruct n as [|n]; [lia|].
    apply cholesky_S in E. destruct E as [Hp [L0 [E0 ->]]].
    destruct (IH n (schur a) L0) as [L1 [E1 H1]]; [lia|exact E0|].
    simpl.
    change (fun i j => a (S i) (S j) - a (S i) O * a (S j) O / a O O) with (schur a).
    rewrite E1. destruct (Rlt_dec 0 (a O O)) as [_|Hn]; [|contradiction].
    eexists. split; [reflexivity|].
    intros i j Hi Hj. destruct i as [|i], j as [|j]; try reflexivity.
    apply H1; lia.
Qed.

(** The distance over the position is part of the distance over the four
    components. *)
Lemma squared_maha_prefix L2 L4 mu m :
  eq2 2 2 L2 L4 ->
  squared_maha 2 L2 mu m <= squared_maha 4 L4 mu m.
Proof.
  intros HL. unfold squared_maha, linalg.solve_triangular.
  assert (Hz : eq1 2 (linalg.solve_lower 2 L2 (sub1 m mu))
                     (linalg.solve_lower 4 L4 (sub1 m mu))).
  { intros k Hk.
    rewrite (solve_lower_ext 2 L2 L4 (sub1 m mu) (sub1 m mu) HL (fun i _ => eq_refl) k Hk).
    apply solve_lower_prefix; lia. }
  rewrite (sum_n_ext 2 _ (fun k => linalg.solve_lower 4 L4 (sub1 m mu) k
                                   * linalg.solve_lower 4 L4 (sub1 m mu) k))
    by (intros k Hk; rewrite (Hz k Hk); reflexivity).
  rewrite (sum_n_S_tail 3), (sum_n_S_tail 2).
  pose proof (pow2_ge_0 (linalg.solve_lower 4 L4 (sub1 m mu) 2%nat)).
  pose proof (pow2_ge_0 (linalg.solve_lower 4 L4 (sub1 m mu) 3%nat)).
  lra.
Qed.

(** X12: from one state with a positive definite projected covariance,
    the distance that [gating_distance] gives a measurement with
    [only_position] never exceeds the distance it gives it without. *)
Theorem gating_only_position_le self mean covariance measurements :
  pos_def 4 (snd (fst (project self mean covariance 0))) ->
  exists d2 d4,
    fst (gating_distance self mean covariance measurements true) = Ok d2 /\
    fst (gating_distance self mean covariance measurements false) = Ok d4 /\
    length d2 = length measurements /\
    length d4 = length measurements /\
    forall i, (i < length measurements)%nat -> nth i d2 0 <= nth i d4 0.
Proof.
  intros Hpd. destruct (pos_def_cholesky 4 _ Hpd) as [L4 E4].
  assert (H24 : (2 <= 4)%nat) by lia.
  destruct (cholesky_prefix 2 4 _ L4 H24 E4) as [L2 [E2 HL]].
  rewrite (gating_distance_ok self mean covariance measurements true L2 E2).
  rewrite (gating_distance_ok self mean covariance measurements false L4 E4).
  eexists _, _. split; [reflexivity|]. split; [reflexivity|].
  split; [apply length_map|]. split; [apply length_map|].
  intros i Hi. rewrite !nth_map_default by assumption.
  apply squared_maha_prefix, HL.
Qed.

Lemma gating_only_position_le_witness :
  exists d2 d4,
    fst (gating_distance __init__ example_mean eye [example_measurement] true) = Ok d2 /\
    fst (gating_distance __init__ example_mean eye [example_measurement] false) = Ok d4 /\
    nth 0 d2 0 <= nth 0 d4 0.
Proof.
  destruct (gating_only_position_le __init__ example_mean eye [example_measurement]
              (project_cov_pos_def_init _ _))
    as [d2 [d4 [E2 [E4 [_ [_ Hle]]]]]].
  exists d2, d4. split; [exact E2|]. split; [exact E4|].
  apply Hle. cbn [length]. lia.
Defined.

(** X13: when the projected covariance is positive definite, the distance
    that [gating_distance] returns is quadratic in the offset from the
    projected mean: a measurement whose offset is [t] times that of
    another gets [t^2] times its distance; so two measurements that are
    mirror images of each other about the projected mean get the same
    distance. *)
Theorem gating_distance_homogeneous self mean covariance measurements (only_position : bool) :
  let pr := project self mean covariance 0 in
  let mu := fst (fst pr) in
  let n := if only_position then 2%nat else 4%nat in
  pos_def 4 (snd (fst pr)) ->
  exists distances,
    fst (gating_distance self mean covariance measurements only_position) = Ok distances /\
    (forall i j t, (i < length measurements)%nat -> (j < length measurements)%nat ->
       (forall k, (k < n)%nat ->
          nth i measurements zeros1 k - mu k = t * (nth j measurements zeros1 k - mu k)) ->
       nth i distances 0 = t ^ 2 * nth j distances 0) /\
    (forall i j, (i < length measurements)%nat -> (j < length measurements)%nat ->
       (forall k, (k < n)%nat ->
          nth i measurements zeros1 k - mu k = - (nth j measurements zeros1 k - mu k)) ->
       nth i distances 0 = nth j distances 0).
Proof.
  intros pr mu n Hpd4.
  pose proof (pos_def_gating_block only_position _ Hpd4) as Hpd. fold n in Hpd.
  destruct (pos_def_cholesky n _ Hpd) as [L E].
  destruct (cholesky_triangular n _ L E) as [Hl [_ [Hd _]]].
  pose proof (gating_distance_ok self mean covariance measurements only_position L E) as Hg.
  fold n mu in Hg.
  exists (map (squared_maha n L mu) measurements).
  split; [rewrite Hg; reflexivity|].
  assert (Hray : forall i j t,
            (i < length measurements)%nat -> (j < length measurements)%nat ->
            (forall k, (k < n)%nat ->
               nth i measurements zeros1 k - mu k
               = t * (nth j measurements zeros1 k - mu k)) ->
            nth i (map (squared_maha n L mu) measurements) 0
            = t ^ 2 * nth j (map (squared_maha n L mu) measurements) 0).
  { intros i j t Hi Hj Hm. rewrite !nth_map_default by assumption.
    rewrite (squared_maha_ray n L mu (nth i measurements zeros1) t
               (sub1 (nth j measurements zeros1) mu) Hl Hd)
      by (intros k Hk; unfold add1, scale1, sub1; specialize (Hm k Hk); lra).
    rewrite (squared_maha_ray n L mu (nth j measurements zeros1) 1
               (sub1 (nth j measurements zeros1) mu) Hl Hd)
      by (intros k Hk; unfold add1, scale1, sub1; lra).
    ring. }
  split; [exact Hray|].
  intros i j Hi Hj Hm.
  rewrite (Hray i j (-1) Hi Hj) by (intros k Hk; specialize (Hm k Hk); lra).
  ring.
Qed.

Lemma gating_distance_homogeneous_witness :
  exists distances,
    fst (gating_distance __init__ example_mean eye
           [array [101; 99; 1 / 2; 21]; array [99; 101; 1 / 2; 19];
            array [103; 97; 1 / 2; 23]] false)
    = Ok distances /\
    nth 0 distances 0 = nth 1 distances 0 /\
    nth 2 distances 0 = 3 ^ 2 * nth 0 distances 0.
Proof.
  destruct (gating_distance_homogeneous __init__ example_mean eye
              [array [101; 99; 1 / 2; 21]; array [99; 101; 1 / 2; 19];
               array [103; 97; 1 / 2; 23]] false
              (project_cov_pos_def_init _ _))
    as [ds [E [Hray Hsym]]].
  exists ds. split; [exact E|]. split.
  - apply Hsym; [cbn [length]; lia|cbn [length]; lia|].
    intros k Hk. cbn [nth fst project]. rewrite update_mat_dot_mv by lia.
    index_cases k; eval_example; lra.
  - apply Hray; [cbn [length]; lia|cbn [length]; lia|].
    intros k Hk. cbn [nth fst project]. rewrite update_mat_dot_mv by lia.
    index_cases k; eval_example; lra.
Defined.

(** ** Gating, then update *)



(** ** The gating thresholds *)

Lemma getitem_In d key v : getitem d key = Some v -> In (key, v) d.
Proof.
  induction d as [|[k w] d IH]; simpl; [discriminate|].
  destruct (Nat.eqb k key) eqn:E.
  - intros H. injection H as <-. apply Nat.eqb_eq in E. subst. left. reflexivity.
  - intros H. right. apply IH, H.
Qed.

(** X15: the table [chi2inv95] has an entry exactly for 1 to 9 degrees of
    freedom, any other key raises [KeyError]; its thresholds are positive
    and grow strictly with the degrees of freedom; the thresholds for the
    two shapes of [gating_distance], 2 and 4 components, are 5.9915 and
    9.4877. *)
Theorem chi2inv95_table :
  (forall n, getitem chi2inv95 n = None <-> (n = 0 \/ 9 < n)%nat) /\
  (forall m n a b,
      getitem chi2inv95 m = Some a -> getitem chi2inv95 n = Some b ->
      (m < n)%nat -> 0 < a < b) /\
  getitem chi2inv95 2 = Some (59915 / 10000) /\
  getitem chi2inv95 4 = Some (94877 / 10000).
Proof.
  split; [|split; [|split; reflexivity]].
  - intros n.
    do 10 (destruct n as [|n];
           [simpl; split;
            [try discriminate; auto
            |intros [H|H]; [try discriminate; reflexivity|lia]]|]).
    simpl. split; [intros _; right; lia|reflexivity].
  - intros m n a b Hm Hn Hlt.
    apply getitem_In in Hm. apply getitem_In in Hn.
    simpl in Hm, Hn.
    repeat (destruct Hm as [Hm|Hm]; [injection Hm as <- <-|]); try contradiction;
      repeat (destruct Hn as [Hn|Hn]; [injection Hn as <- <-|]); try contradiction;
      try lia; lra.
Qed.

(** ** The exports of [boxmot] *)

Lemma existsb_eqb_In name (l : list String.string) :
  existsb (String.eqb name) l = true <-> In name l.
Proof.
  rewrite existsb_exists. split.
  - intros [x [Hx He]]. apply String.eqb_eq in He. subst. exact Hx.
  - intros H. exists name. split; [exact H|apply String.eqb_refl].
Qed.

Section Exports.
Import String.StringSyntax.
Local Open Scope string_scope.

(** X16: in every namespace that holds the names the statements of
    [boxmot/__init__.py] bind and no name [FastStrongSORTcreate_tracker],
    [from boxmot import *] raises [AttributeError] at that name.  [__all__]
    has 11 entries; each of them other than [FastStrongSORTcreate_tracker]
    is bound by the file; [FastStrongSORT] and [create_tracker] are bound
    and are not in [__all__]. *)
Theorem import_star_fails (namespace : list String.string) :
  (forall name, In name boxmot.assigned -> In name namespace) ->
  ~ In "FastStrongSORTcreate_tracker" namespace ->
  boxmot.import_star namespace boxmot.__all__
  = boxmot.AttributeError "FastStrongSORTcreate_tracker" /\
  length boxmot.__all__ = 11%nat /\
  (forall name, In name boxmot.__all__ ->
     name = "FastStrongSORTcreate_tracker" \/ In name boxmot.assigned) /\
  (forall name, In name ["FastStrongSORT"; "create_tracker"] ->
     In name namespace /\ ~ In name boxmot.__all__).
Proof.
  intros Hb Hm.
  assert (Hin : forall name, In name boxmot.assigned ->
                  existsb (String.eqb name) namespace = true).
  { intros name H. apply existsb_eqb_In, Hb, H. }
  assert (Hout : existsb (String.eqb "FastStrongSORTcreate_tracker") namespace = false).
  { destruct (existsb _ namespace) eqn:E; [|reflexivity].
    apply existsb_eqb_In in E. contradiction. }
  split; [|split; [reflexivity|split]].
  - cbv [boxmot.__all__ boxmot.import_star String.append].
    rewrite !Hin by (cbv [boxmot.assigned boxmot.imported app]; simpl; tauto).
    rewrite Hout. reflexivity.
  - intros name H. cbv [boxmot.__all__ String.append] in H. simpl in H.
    cbv [boxmot.assigned boxmot.imported app]. simpl.
    intuition (subst; auto 20).
  - intros name H. split.
    + apply Hb. simpl in H. cbv [boxmot.assigned boxmot.imported app]. simpl.
      intuition (subst; auto 20).
    + intros H'. cbv [boxmot.__all__ String.append] in H'. simpl in H, H'.
      destruct H as [H|[H|[]]]; subst name; intuition discriminate.
Qed.

Lemma import_star_fails_witness :
  boxmot.import_star boxmot.assigned boxmot.__all__
  = boxmot.AttributeError "FastStrongSORTcreate_tracker".
Proof.
  refine (proj1 (import_star_fails boxmot.assigned (fun name H => H) _)).
  cbv [boxmot.assigned boxmot.imported app]. simpl. intuition discriminate.
Defined.

End Exports.
